(** * ShuntingYardAlgorithm: a shallow embedding of [main.cpp]

    The program reorders a token sequence into postfix order with the
    shunting-yard algorithm ([shuntingYardAlgorithm]) and evaluates the
    resulting stack recursively ([evaluateExpressionTokens]).

    Tokens are heap objects handled through [std::shared_ptr]: the
    reordering pass writes the [d_unary] and [d_leftAssociative] fields of
    an operator object in place, and every container holding a pointer to
    that object sees the write.  The embedding therefore keeps a store of
    token objects and lets the queue and the two stacks hold addresses. *)

From Stdlib Require Import ZArith String Ascii.
From stdpp Require Import gmap strings list pretty.

Local Open Scope string_scope.

(** ** Results

    What the C++ standard leaves undefined (dereferencing a null pointer,
    [top()] of an empty stack, signed overflow, division by zero, reading
    an operator field through a cast of a token that is no operator) is the
    outcome [Undefined].  [OutOfFuel] only arises from the fuel of the
    recursive evaluator. *)

Inductive result (A : Type) : Type :=
| Ok (a : A)
| Undefined
| OutOfFuel.

Arguments Ok {A} a.
Arguments Undefined {A}.
Arguments OutOfFuel {A}.

(** [result] is used through stdpp's monad notations: [x ← r; k]. *)
#[global] Instance result_ret : MRet result := fun A a => Ok a.

#[global] Instance result_bind : MBind result := fun A B k r =>
  match r with
  | Ok a => k a
  | Undefined => Undefined
  | OutOfFuel => OutOfFuel
  end.

(** ** Token model *)

Inductive TokenType : Type := Number | Operator | Symbol.

Definition TokenType_eqb (a b : TokenType) : bool :=
  match a, b with
  | Number, Number | Operator, Operator | Symbol, Symbol => true
  | _, _ => false
  end.

(** The three concrete classes.  [d_precedence] is a [uint32_t]; it is only
    ever compared, so it is kept as a natural number. *)
Inductive Token : Type :=
| NumberToken (d_value : string)
| OperatorToken (d_value : string) (d_precedence : N)
                (d_leftAssociative : bool) (d_unary : bool)
| SymbolToken (d_value : string).

Definition type (t : Token) : TokenType :=
  match t with
  | NumberToken _ => Number
  | OperatorToken _ _ _ _ => Operator
  | SymbolToken _ => Symbol
  end.

Definition d_value (t : Token) : string :=
  match t with
  | NumberToken v | OperatorToken v _ _ _ | SymbolToken v => v
  end.

(** [Token::toString], the base-class rendering. *)
Definition Token_toString (t : Token) : string :=
  let prefix := "('" in
  let suffix := "': '" ++ d_value t ++ "')" in
  let prefix :=
    match type t with
    | Number => prefix ++ "Number"
    | Operator => prefix ++ "Operator"
    | Symbol => prefix ++ "Symbol"
    end in
  prefix ++ suffix.

(** Virtual dispatch of [toString]: [OperatorToken] overrides it. *)
Definition toString (t : Token) : string :=
  match t with
  | OperatorToken v _ _ u =>
      "('Operator': '" ++ v ++ "', " ++ (if u then "unary" else "binary") ++ ")"
  | _ => Token_toString t
  end.

(** ** 64-bit signed arithmetic

    [int64_t] arithmetic whose mathematical result is not representable is
    undefined behaviour, as is division by zero. *)

Definition int64_min : Z := (- 2 ^ 63)%Z.
Definition int64_max : Z := (2 ^ 63 - 1)%Z.

Definition in_int64 (z : Z) : bool :=
  ((int64_min <=? z) && (z <=? int64_max))%Z.

Definition checked (z : Z) : result Z :=
  if in_int64 z then Ok z else Undefined.

Definition int64_add (a b : Z) : result Z := checked (a + b).
Definition int64_sub (a b : Z) : result Z := checked (a - b).
Definition int64_mul (a b : Z) : result Z := checked (a * b).
Definition int64_div (a b : Z) : result Z :=
  if (b =? 0)%Z then Undefined else checked (Z.quot a b).
Definition int64_neg (a : Z) : result Z := checked (- a).
(** [static_cast<int64_t>(!static_cast<bool>(x))] *)
Definition int64_lnot (a : Z) : Z := if (a =? 0)%Z then 1%Z else 0%Z.

(** ** [std::atoll]

    Leading white space is skipped, an optional sign is read, then the
    longest run of decimal digits; no digits give 0.  A value outside
    [int64_t] is undefined. *)

Definition isspace (c : ascii) : bool :=
  let n := nat_of_ascii c in
  (n =? 32)%nat || ((9 <=? n)%nat && (n <=? 13)%nat).

Definition isdigit (c : ascii) : bool :=
  let n := nat_of_ascii c in
  (48 <=? n)%nat && (n <=? 57)%nat.

Definition digit_value (c : ascii) : Z := Z.of_nat (nat_of_ascii c - 48).

Fixpoint skip_spaces (s : string) : string :=
  match s with
  | String c s' => if isspace c then skip_spaces s' else s
  | EmptyString => s
  end.

Fixpoint read_digits (acc : Z) (s : string) : Z :=
  match s with
  | String c s' =>
      if isdigit c then read_digits (acc * 10 + digit_value c)%Z s' else acc
  | EmptyString => acc
  end.

Definition atoll (s : string) : result Z :=
  match skip_spaces s with
  | String "-" s' => checked (- read_digits 0 s')
  | String "+" s' => checked (read_digits 0 s')
  | s' => checked (read_digits 0 s')
  end.

(** [NumberToken::getIntValue] *)
Definition getIntValue (t : Token) : result Z := atoll (d_value t).

(** ** The store of token objects *)

(** A [TokenRef] is the address of a token object; an address outside the
    store stands for a null pointer. *)
Abbreviation TokenRef := nat.

Abbreviation Heap := (gmap nat Token).

(** [token->...]: dereferencing. *)
Definition deref (h : Heap) (r : TokenRef) : result Token :=
  match h !! r with
  | Some t => Ok t
  | None => Undefined
  end.

(** [as<OperatorToken>(r)->d_precedence] and [->d_leftAssociative]: the
    cast is a [static_pointer_cast], so reading the field of a token that is
    no [OperatorToken] is undefined. *)
Definition get_precedence (t : Token) : result N :=
  match t with
  | OperatorToken _ p _ _ => Ok p
  | _ => Undefined
  end.

Definition get_leftAssociative (t : Token) : result bool :=
  match t with
  | OperatorToken _ _ la _ => Ok la
  | _ => Undefined
  end.

Definition get_unary (t : Token) : result bool :=
  match t with
  | OperatorToken _ _ _ u => Ok u
  | _ => Undefined
  end.

(** The two writes of lines 167-168:
    [d_unary = true; d_leftAssociative = false]. *)
Definition set_unary (t : Token) : result Token :=
  match t with
  | OperatorToken v p _ _ => Ok (OperatorToken v p false true)
  | _ => Undefined
  end.

(** ** The reordering pass *)

(** The local variables of [shuntingYardAlgorithm], the token store and the
    text written to [std::cout].  Stacks have their top at the head. *)
Record SYState : Type := mkSY {
  heap : Heap;
  outputStack : list TokenRef;
  operatorStack : list TokenRef;
  previousToken : option TokenRef;
  cout : list string
}.

(** How one iteration of a loop ends. *)
Inductive step_result : Type :=
| Continue (s : SYState)
| Break (s : SYState)
| Fault.

(** Lines 165-170: the unary check on an operator token [token] whose
    object is [tk]. *)
Definition tagUnary (h : Heap) (previousToken : option TokenRef)
    (token : TokenRef) (tk : Token) : result Heap :=
  if (d_value tk =? "+") || (d_value tk =? "-") then
    prevIsOpOrSym ←
      match previousToken with
      | None => Ok true
      | Some p =>
          ptk ← deref h p;
          Ok (TokenType_eqb (type ptk) Operator || TokenType_eqb (type ptk) Symbol)
      end;
    if (prevIsOpOrSym : bool) then
      tk' ← set_unary tk;
      Ok (<[token := tk']> h)
    else Ok h
  else Ok h.

(** Lines 172-186: the loop that moves operators of the operator stack to
    the output stack before [token] is pushed. *)
Fixpoint popOperators (h : Heap) (token : TokenRef)
    (operatorStack outputStack : list TokenRef)
    : result (list TokenRef * list TokenRef) :=
  match operatorStack with
  | [] => Ok (operatorStack, outputStack)
  | top :: rest =>
      ttk ← deref h top;
      if d_value ttk =? "(" then Ok (operatorStack, outputStack)
      else
        topPrec ← get_precedence ttk;
        ctk ← deref h token;
        curPrec ← get_precedence ctk;
        if (topPrec <? curPrec)%N then Ok (operatorStack, outputStack)
        else
          curLeft ← get_leftAssociative ctk;
          if (topPrec =? curPrec)%N && negb curLeft
          then Ok (operatorStack, outputStack)
          else popOperators h token rest (top :: outputStack)
  end.

(** Lines 194-200: the loop run on a closing parenthesis. *)
Fixpoint popToParen (h : Heap) (operatorStack outputStack : list TokenRef)
    : result (list TokenRef * list TokenRef) :=
  match operatorStack with
  | [] => Ok (operatorStack, outputStack)
  | top :: rest =>
      ttk ← deref h top;
      if d_value ttk =? "(" then Ok (operatorStack, outputStack)
      else popToParen h rest (top :: outputStack)
  end.

Definition mismatched_msg : string :=
  "Mismatched parenthesis error!" ++ String "010"%char EmptyString.

(** Lines 152-212: the body of the main loop, for the token just read. *)
Definition loopBody (s : SYState) (token : TokenRef) : step_result :=
  match deref (heap s) token with
  | Ok tk =>
      if TokenType_eqb (type tk) Number then
        Continue (mkSY (heap s) (token :: outputStack s) (operatorStack s)
                       (Some token) (cout s))
      else if d_value tk =? "(" then
        Continue (mkSY (heap s) (outputStack s) (token :: operatorStack s)
                       (Some token) (cout s))
      else if TokenType_eqb (type tk) Operator then
        match tagUnary (heap s) (previousToken s) token tk with
        | Ok h' =>
            match popOperators h' token (operatorStack s) (outputStack s) with
            | Ok (ops, out) =>
                Continue (mkSY h' out (token :: ops) (Some token) (cout s))
            | _ => Fault
            end
        | _ => Fault
        end
      else if d_value tk =? ")" then
        match popToParen (heap s) (operatorStack s) (outputStack s) with
        | Ok (ops, out) =>
            match ops with
            | [] =>
                Break (mkSY (heap s) out ops (previousToken s)
                            (cout s ++ [mismatched_msg])%list)
            | top :: ops' =>
                match deref (heap s) top with
                | Ok ttk =>
                    if negb (d_value ttk =? "(") then
                      Break (mkSY (heap s) out ops (previousToken s)
                                  (cout s ++ [mismatched_msg])%list)
                    else
                      Continue (mkSY (heap s) out ops' (Some token) (cout s))
                | _ => Fault
                end
            end
        | _ => Fault
        end
      else
        Continue (mkSY (heap s) (outputStack s) (operatorStack s)
                       (Some token) (cout s))
  | _ => Fault
  end.

(** Lines 137-142: [readToken] takes the first element off the queue.
    [at(0)] throws on an empty queue ([None]); the main loop only calls it
    on a queue it has found non-empty. *)
Definition readToken (tokens : list TokenRef)
    : option (TokenRef * list TokenRef) :=
  match tokens with
  | [] => None
  | token :: rest => Some (token, rest)
  end.

(** Lines 150-213: the main loop, [readToken] being written as the pattern
    [token :: rest]; the result carries what is left of the queue. *)
Fixpoint mainLoop (s : SYState) (inputQueue : list TokenRef)
    : result (SYState * list TokenRef) :=
  match inputQueue with
  | [] => Ok (s, inputQueue)
  | token :: rest =>
      match loopBody s token with
      | Continue s' => mainLoop s' rest
      | Break s' => Ok (s', rest)
      | Fault => Undefined
      end
  end.

(** Lines 216-219: the operator stack is emptied onto the output stack. *)
Fixpoint drain (operatorStack outputStack : list TokenRef) : list TokenRef :=
  match operatorStack with
  | [] => outputStack
  | top :: rest => drain rest (top :: outputStack)
  end.

Definition initialState (h : Heap) : SYState := mkSY h [] [] None [].

(** What a call leaves behind: the returned stack, the store, the queue
    (passed by reference) and the text printed. *)
Record SYResult : Type := mkRes {
  res_stack : list TokenRef;
  res_heap : Heap;
  res_queue : list TokenRef;
  res_cout : list string
}.

(** Lines 215-221, run when the main loop is left in state [s] with
    [queue] unread. *)
Definition finish (s : SYState) (queue : list TokenRef) : SYResult :=
  mkRes (drain (operatorStack s) (outputStack s)) (heap s) queue (cout s).

(** The pass from an arbitrary point of the main loop on. *)
Definition passFrom (s : SYState) (inputQueue : list TokenRef)
    : result SYResult :=
  '(s', queue) ← mainLoop s inputQueue;
  Ok (finish s' queue).

Definition shuntingYardAlgorithm (h : Heap) (inputQueue : list TokenRef)
    : result SYResult :=
  passFrom (initialState h) inputQueue.

(** ** The evaluator *)

Definition endl : string := String "010"%char EmptyString.

(** Line 255: the text written when a token cannot be evaluated. *)
Definition error_msg (tk : Token) : string :=
  "Error evaluating token: " ++ toString tk ++ endl.

(** What a call of the evaluator leaves behind: the returned integer, the
    stack (passed by reference) and the text printed, oldest first. *)
Record EvalResult : Type := mkEval {
  ev_value : Z;
  ev_stack : list TokenRef;
  ev_cout : list string
}.

(** Lines 224-257.  Every call pops a token before it recurses, so the
    length of the stack bounds the depth of the recursion; [fuel] is that
    bound. *)
Fixpoint evaluate (fuel : nat) (h : Heap) (expressionStack : list TokenRef)
    : result EvalResult :=
  match fuel with
  | O => OutOfFuel
  | S fuel =>
      match expressionStack with
      | [] => Undefined
      | token :: expressionStack =>
          tk ← deref h token;
          if TokenType_eqb (type tk) Number then
            v ← getIntValue tk;
            Ok (mkEval v expressionStack [])
          else if TokenType_eqb (type tk) Operator then
            unary ← get_unary tk;
            if (unary : bool) then
              r ← evaluate fuel h expressionStack;
              let rhs := ev_value r in
              if d_value tk =? "!" then
                Ok (mkEval (int64_lnot rhs) (ev_stack r) (ev_cout r))
              else if d_value tk =? "+" then
                Ok (mkEval rhs (ev_stack r) (ev_cout r))
              else if d_value tk =? "-" then
                v ← int64_neg rhs;
                Ok (mkEval v (ev_stack r) (ev_cout r))
              else
                Ok (mkEval 0 (ev_stack r) (ev_cout r ++ [error_msg tk])%list)
            else
              r ← evaluate fuel h expressionStack;
              l ← evaluate fuel h (ev_stack r);
              let rhs := ev_value r in
              let lhs := ev_value l in
              let out := (ev_cout r ++ ev_cout l)%list in
              if d_value tk =? "+" then
                v ← int64_add lhs rhs; Ok (mkEval v (ev_stack l) out)
              else if d_value tk =? "-" then
                v ← int64_sub lhs rhs; Ok (mkEval v (ev_stack l) out)
              else if d_value tk =? "*" then
                v ← int64_mul lhs rhs; Ok (mkEval v (ev_stack l) out)
              else if d_value tk =? "/" then
                v ← int64_div lhs rhs; Ok (mkEval v (ev_stack l) out)
              else
                Ok (mkEval 0 (ev_stack l) (out ++ [error_msg tk])%list)
          else
            Ok (mkEval 0 expressionStack [error_msg tk])
      end
  end.

Definition evaluateExpressionTokens (h : Heap) (expressionStack : list TokenRef)
    : result EvalResult :=
  evaluate (S (length expressionStack)) h expressionStack.

(** ** Building a store from a token list

    [makeToken] allocates a fresh object per call: the [i]-th token of a
    list lives at address [i]. *)
Fixpoint alloc_from (a : nat) (ts : list Token) : Heap :=
  match ts with
  | [] => ∅
  | t :: ts' => <[a := t]> (alloc_from (S a) ts')
  end.

Definition alloc (ts : list Token) : Heap := alloc_from 0 ts.

(** Lines 274-277 of [main]: reorder, then evaluate the returned stack. *)
Definition runOn (h : Heap) (inputQueue : list TokenRef) : result EvalResult :=
  r ← shuntingYardAlgorithm h inputQueue;
  evaluateExpressionTokens (res_heap r) (res_stack r).

(** The same for a token list built by [makeToken] calls. *)
Definition run (ts : list Token) : result EvalResult :=
  runOn (alloc ts) (seq 0 (length ts)).

(** The token list of lines 103-113 (commented out in the source). *)
Definition TOKENS_1 : list Token :=
  [ NumberToken "4";
    OperatorToken "+" 1 true false;
    NumberToken "2";
    OperatorToken "*" 2 true false;
    SymbolToken "(";
    NumberToken "3";
    OperatorToken "-" 1 true false;
    NumberToken "1";
    SymbolToken ")" ].

(** The static [TOKENS] of lines 123-135. *)
Definition TOKENS : list Token :=
  [ OperatorToken "-" 1 false false;
    NumberToken "6";
    OperatorToken "+" 1 true false;
    NumberToken "2";
    OperatorToken "*" 2 true false;
    SymbolToken "(";
    OperatorToken "-" 1 false false;
    NumberToken "3";
    OperatorToken "-" 1 true false;
    NumberToken "1";
    SymbolToken ")" ].

(** ** Vocabulary of the statements *)

(** What the pass puts on the operator stack: objects whose text is ["("]
    (line 160) or operator objects (line 189). *)
Definition stackable (h : Heap) (r : TokenRef) : Prop :=
  exists tk, h !! r = Some tk /\ (d_value tk = "(" \/ type tk = Operator).

Definition wf_state (s : SYState) : Prop :=
  Forall (stackable (heap s)) (operatorStack s) /\
  (forall q, previousToken s = Some q -> is_Some (heap s !! q)).

(** The text of the object behind a pointer. *)
Definition text_of (h : Heap) (r : TokenRef) : option string :=
  d_value <$> h !! r.

(** The pointers returned by the pass, the queue it leaves and what it
    printed, for the tokens [ts] allocated at addresses [0], [1], ... *)
Definition reorder (ts : list Token)
    : result (list TokenRef * list TokenRef * list string) :=
  r ← shuntingYardAlgorithm (alloc ts) (seq 0 (length ts));
  Ok (res_stack r, res_queue r, res_cout r).

(** The token objects after the pass, in the order of the input. *)
Definition objects_after (ts : list Token) : result (list (option Token)) :=
  r ← shuntingYardAlgorithm (alloc ts) (seq 0 (length ts));
  Ok (map (fun a => res_heap r !! a) (seq 0 (length ts))).

(** The previous token is absent, an operator or a symbol. *)
Definition unary_context (s : SYState) : Prop :=
  previousToken s = None \/
  exists q ptk, previousToken s = Some q /\ heap s !! q = Some ptk /\
                (type ptk = Operator \/ type ptk = Symbol).

(** The previous token is a number. *)
Definition number_context (s : SYState) : Prop :=
  exists q ptk, previousToken s = Some q /\ heap s !! q = Some ptk /\
                type ptk = Number.

(** The loop of lines 172-186, entered with top [o1], moves [o1] to the
    output stack and goes on with the rest. *)
Definition pops_top (h : Heap) (token o1 : TokenRef)
    (rest out : list TokenRef) : Prop :=
  popOperators h token (o1 :: rest) out =
    popOperators h token rest (o1 :: out) /\
  popOperators h token (o1 :: rest) out <> Ok (o1 :: rest, out).

(** The loop is left at once, both stacks untouched. *)
Definition stops_at_top (h : Heap) (token o1 : TokenRef)
    (rest out : list TokenRef) : Prop :=
  popOperators h token (o1 :: rest) out = Ok (o1 :: rest, out).

(** A unary operator the evaluator has no case for. *)
Definition unknown_unary (v : string) : Prop :=
  v <> "!" /\ v <> "+" /\ v <> "-".

(** A binary operator the evaluator has no case for. *)
Definition unknown_binary (v : string) : Prop :=
  v <> "+" /\ v <> "-" /\ v <> "*" /\ v <> "/".

(** The state in which the main loop meets the token that follows
    [consumed], when no iteration on [consumed] has left the loop. *)
Fixpoint iterate (s : SYState) (consumed : list TokenRef) : option SYState :=
  match consumed with
  | [] => Some s
  | token :: rest =>
      match loopBody s token with
      | Continue s' => iterate s' rest
      | _ => None
      end
  end.

(** ** Stores and states of the worked examples *)

(** The lone token [-]. *)
Definition store_minus : Heap := alloc [OperatorToken "-" 1 true false].

(** [1 * 2 +], stopped before the [+]: [*] is on the operator stack. *)
Definition store_product_sum : Heap :=
  alloc [ NumberToken "1"; OperatorToken "*" 2 true false;
          NumberToken "2"; OperatorToken "+" 1 true false ].

Definition state_product_sum : SYState :=
  mkSY store_product_sum [2; 0] [1] (Some 2) [].

(** [1 + 2 ) 7], stopped before the [)]: no ["("] is on the operator
    stack. *)
Definition store_unmatched_close : Heap :=
  alloc [ NumberToken "1"; OperatorToken "+" 1 true false;
          NumberToken "2"; SymbolToken ")"; NumberToken "7" ].

Definition state_unmatched_close : SYState :=
  mkSY store_unmatched_close [2; 0] [1] (Some 2) [].

(** [( 1]: the parenthesis is never closed. *)
Definition store_open : Heap := alloc [ SymbolToken "("; NumberToken "1" ].

(** The postfix stack of [7 / 2], top first. *)
Definition store_quotient : Heap :=
  alloc [ OperatorToken "/" 2 true false; NumberToken "2"; NumberToken "7" ].

(** An operator [^] the evaluator does not know, above three numbers. *)
Definition store_caret : Heap :=
  alloc [ OperatorToken "^" 3 true false; NumberToken "2";
          NumberToken "7"; NumberToken "9" ].

(** ** Roles of tokens in the pass *)

(** The branch of the main loop a token object takes (lines 155, 159, 163
    and 193, in this order; a token that passes none of the four tests is
    only remembered as the previous token). *)
Inductive role : Type := RNumber | ROpen | ROperator | RClose | RSkip.

Definition role_of (tk : Token) : role :=
  if TokenType_eqb (type tk) Number then RNumber
  else if d_value tk =? "(" then ROpen
  else if TokenType_eqb (type tk) Operator then ROperator
  else if d_value tk =? ")" then RClose
  else RSkip.

Definition role_at (h : Heap) (r : TokenRef) : option role :=
  role_of <$> h !! r.

#[global] Instance role_eq_dec : EqDecision role.
Proof. solve_decision. Defined.

(** What one iteration does to the two stacks, seen through the roles
    [ρ] of the pointers only: [body_spec ρ token ops out go ops' out']. *)
Inductive body_spec (ρ : TokenRef -> option role) (token : TokenRef)
    (ops out : list TokenRef) : bool -> list TokenRef -> list TokenRef -> Prop :=
| spec_number :
    ρ token = Some RNumber ->
    body_spec ρ token ops out true ops (token :: out)
| spec_open :
    ρ token = Some ROpen ->
    body_spec ρ token ops out true (token :: ops) out
| spec_operator (popped kept : list TokenRef) :
    ρ token = Some ROperator ->
    ops = (popped ++ kept)%list ->
    Forall (fun r => ρ r = Some ROperator) popped ->
    body_spec ρ token ops out true (token :: kept) (rev popped ++ out)%list
| spec_close (popped kept : list TokenRef) (lp : TokenRef) :
    ρ token = Some RClose ->
    ops = (popped ++ lp :: kept)%list ->
    Forall (fun r => ρ r = Some ROperator) popped ->
    ρ lp = Some ROpen ->
    body_spec ρ token ops out true kept (rev popped ++ out)%list
| spec_mismatch :
    ρ token = Some RClose ->
    Forall (fun r => ρ r = Some ROperator) ops ->
    body_spec ρ token ops out false [] (rev ops ++ out)%list
| spec_skip :
    ρ token = Some RSkip ->
    body_spec ρ token ops out true ops out.

(** The operator stack holds open parentheses and operators only, and the
    previous pointer is valid. *)
Definition roles_inv (s : SYState) : Prop :=
  Forall (fun r => role_at (heap s) r = Some ROpen \/
                   role_at (heap s) r = Some ROperator) (operatorStack s) /\
  (forall q, previousToken s = Some q -> is_Some (heap s !! q)).

(** What an iteration that does not fault has done. *)
Record step_facts (s : SYState) (token : TokenRef) (go : bool)
    (s' : SYState) : Prop := mkFacts {
  sf_valid : is_Some (heap s !! token);
  sf_inv : roles_inv s';
  sf_roles : forall r, role_at (heap s') r = role_at (heap s) r;
  sf_spec : body_spec (role_at (heap s)) token (operatorStack s)
              (outputStack s) go (operatorStack s') (outputStack s');
  sf_cout : cout s' = if go then cout s
                      else (cout s ++ [mismatched_msg])%list;
  sf_prev : go = true -> previousToken s' = Some token
}.

(** The iterations run on the tokens [consumed], seen through roles:
    [run_spec ρ ops out consumed go ops' out'], where [go] tells whether
    the loop is still running after [consumed] or was left on its last
    token. *)
Inductive run_spec (ρ : TokenRef -> option role)
    : list TokenRef -> list TokenRef -> list TokenRef -> bool ->
      list TokenRef -> list TokenRef -> Prop :=
| run_done ops out : run_spec ρ ops out [] true ops out
| run_step token consumed ops out ops1 out1 go ops2 out2 :
    body_spec ρ token ops out true ops1 out1 ->
    run_spec ρ ops1 out1 consumed go ops2 out2 ->
    run_spec ρ ops out (token :: consumed) go ops2 out2
| run_left token ops out ops1 out1 :
    body_spec ρ token ops out false ops1 out1 ->
    run_spec ρ ops out [token] false ops1 out1.

(** The nesting depth of parentheses after the queue [q], entered at
    depth [d]; [None] when a closing parenthesis finds the depth 0. *)
Fixpoint paren_depth (h : Heap) (d : nat) (q : list TokenRef) : option nat :=
  match q with
  | [] => Some d
  | r :: q' =>
      match role_at h r with
      | Some ROpen => paren_depth h (S d) q'
      | Some RClose =>
          match d with
          | O => None
          | S d' => paren_depth h d' q'
          end
      | _ => paren_depth h d q'
      end
  end.

(** The pointers of a list whose role is [x], and their number. *)
Definition of_role (h : Heap) (x : role) (l : list TokenRef) : list TokenRef :=
  filter (fun r => role_at h r = Some x) l.

Definition count_role (h : Heap) (x : role) (l : list TokenRef) : nat :=
  length (of_role h x l).

(** What the pass may have done to a token object: nothing, or the two
    writes of lines 167-168 on an operator whose text is [+] or [-]. *)
Definition retagged (a b : Token) : Prop :=
  b = a \/
  exists v p la u,
    a = OperatorToken v p la u /\ (v = "+" \/ v = "-") /\
    b = OperatorToken v p false true.

(** ** Expression trees *)

(** An expression as the evaluator reads it off the stack: a number, a
    unary operator above its operand, a binary operator above its right
    and then its left operand. *)
Inductive Expr : Type :=
| ENum (n : TokenRef)
| EUn (op : TokenRef) (e : Expr)
| EBin (op : TokenRef) (l r : Expr).

(** The stack holding [e], top first. *)
Fixpoint postfix (e : Expr) : list TokenRef :=
  match e with
  | ENum n => [n]
  | EUn op e => op :: postfix e
  | EBin op l r => op :: postfix r ++ postfix l
  end.

(** An integer that fits [int64_t]. *)
Definition fits (z : Z) : option Z := if in_int64 z then Some z else None.

Definition apply_unary (v : string) (x : Z) : option Z :=
  if v =? "!" then Some (if (x =? 0)%Z then 1%Z else 0%Z)
  else if v =? "+" then Some x
  else if v =? "-" then fits (- x)
  else None.

Definition apply_binary (v : string) (x y : Z) : option Z :=
  if v =? "+" then fits (x + y)
  else if v =? "-" then fits (x - y)
  else if v =? "*" then fits (x * y)
  else if v =? "/" then (if (y =? 0)%Z then None else fits (Z.quot x y))
  else None.

(** The value of an expression in the store [h]: that of its literal for
    a number, the operator applied to the values of the operands otherwise.
    There is none when a node is not the token it should be (a Number, a
    unary operator [! + -], a binary operator [+ - * /]), when a literal or
    a result does not fit [int64_t], or when a divisor is 0. *)
Fixpoint value (h : Heap) (e : Expr) : option Z :=
  match e with
  | ENum n =>
      match h !! n with
      | Some (NumberToken s) =>
          match atoll s with
          | Ok z => Some z
          | _ => None
          end
      | _ => None
      end
  | EUn op e =>
      match h !! op with
      | Some (OperatorToken v _ _ true) =>
          match value h e with
          | Some x => apply_unary v x
          | None => None
          end
      | _ => None
      end
  | EBin op l r =>
      match h !! op with
      | Some (OperatorToken v _ _ false) =>
          match value h l, value h r with
          | Some x, Some y => apply_binary v x y
          | _, _ => None
          end
      | _ => None
      end
  end.

(** A fully parenthesized infix expression with binary operators:
    a number, or [( l op r )]. *)
Inductive PExpr : Type :=
| PNum (n : TokenRef)
| PBin (lp : TokenRef) (l : PExpr) (op : TokenRef) (r : PExpr) (rp : TokenRef).

(** The queue it is written as. *)
Fixpoint infix (e : PExpr) : list TokenRef :=
  match e with
  | PNum n => [n]
  | PBin lp l op r rp => lp :: infix l ++ op :: infix r ++ [rp]
  end.

(** Its last token. *)
Definition final_token (e : PExpr) : TokenRef :=
  match e with
  | PNum n => n
  | PBin _ _ _ _ rp => rp
  end.

(** The expression it stands for. *)
Fixpoint tree (e : PExpr) : Expr :=
  match e with
  | PNum n => ENum n
  | PBin _ l op r _ => EBin op (tree l) (tree r)
  end.

(** The tokens of [e] are what they should be: numbers, opening and
    closing parentheses, operators; and an operator whose text is [+] or
    [-] stands directly after a number. *)
Fixpoint well_parenthesized (h : Heap) (e : PExpr) : Prop :=
  match e with
  | PNum n => role_at h n = Some RNumber
  | PBin lp l op r rp =>
      role_at h lp = Some ROpen /\
      role_at h rp = Some RClose /\
      role_at h op = Some ROperator /\
      (text_of h op = Some "+" \/ text_of h op = Some "-" ->
       exists n, l = PNum n) /\
      well_parenthesized h l /\
      well_parenthesized h r
  end.

(** ** Printing and [main] *)

(** One statement [std::cout << token->toString() << "\n"]. *)
Definition token_line (tk : Token) : string := toString tk +:+ endl.

(** The loops of lines 261-264 and 269-271: one line per pointer, in the
    order of the list. *)
Fixpoint printTokens (h : Heap) (l : list TokenRef) : result (list string) :=
  match l with
  | [] => Ok []
  | r :: l' =>
      tk ← deref h r;
      rest ← printTokens h l';
      Ok (token_line tk :: rest)
  end.

Definition stack_header : string :=
  "----- Expression Output Stack -----" +:+ endl.

(** Lines 259-266.  The stack is passed by value: the loop pops a copy. *)
Definition printOutputExpressionStack (h : Heap)
    (expressionStack : list TokenRef) : result (list string) :=
  lines ← printTokens h expressionStack;
  Ok (stack_header :: lines ++ [endl])%list.

(** Line 278; [<<] writes an [int64_t] in decimal. *)
Definition result_line (v : Z) : string :=
  "Expressiong result: " +:+ pretty v +:+ endl.

(** Lines 268-281, for the static token list [ts]: what is written to
    [std::cout]. *)
Definition mainOn (ts : list Token) : result (list string) :=
  let h := alloc ts in
  let queue := seq 0 (length ts) in
  l1 ← printTokens h queue;
  res ← shuntingYardAlgorithm h queue;
  l2 ← printOutputExpressionStack (res_heap res) (res_stack res);
  e ← evaluateExpressionTokens (res_heap res) (res_stack res);
  Ok (l1 ++ [endl] ++ res_cout res ++ l2 ++ ev_cout e ++
      [result_line (ev_value e)])%list.

Definition main : result (list string) := mainOn TOKENS.

(** ** Chains of binary operators without parentheses *)

(** The queue [n0 o1 n1 ... ok nk]. *)
Fixpoint chain_tail (rest : list (TokenRef * TokenRef)) : list TokenRef :=
  match rest with
  | [] => []
  | (o, n) :: rest' => o :: n :: chain_tail rest'
  end.

Definition chain (n0 : TokenRef) (rest : list (TokenRef * TokenRef))
    : list TokenRef :=
  n0 :: chain_tail rest.

(** [((n0 o1 n1) o2 n2) ...], from the expression [acc] read so far. *)
Fixpoint left_nested (acc : Expr) (rest : list (TokenRef * TokenRef)) : Expr :=
  match rest with
  | [] => acc
  | (o, n) :: rest' => left_nested (EBin o acc (ENum n)) rest'
  end.

(** [n0 o1 (n1 o2 (n2 ...))]. *)
Fixpoint right_nested (n0 : TokenRef) (rest : list (TokenRef * TokenRef))
    : Expr :=
  match rest with
  | [] => ENum n0
  | (o, n) :: rest' => EBin o (ENum n0) (right_nested n rest')
  end.

(** The operator [o1], on top of the operator stack, gives way to the
    incoming operator [o2]: it has a higher precedence, or the same and
    [o2] is left-associative. *)
Definition gives_way (h : Heap) (o1 o2 : TokenRef) : Prop :=
  exists v1 p1 la1 u1 v2 p2 la2 u2,
    h !! o1 = Some (OperatorToken v1 p1 la1 u1) /\
    h !! o2 = Some (OperatorToken v2 p2 la2 u2) /\
    ((p2 < p1)%N \/ (p1 = p2 /\ la2 = true)).

(** The operator [o1] stays on the stack under [o2]: it has a lower
    precedence, or the same and [o2] is right-associative. *)
Definition stays_under (h : Heap) (o1 o2 : TokenRef) : Prop :=
  exists v1 p1 la1 u1 v2 p2 la2 u2,
    h !! o1 = Some (OperatorToken v1 p1 la1 u1) /\
    h !! o2 = Some (OperatorToken v2 p2 la2 u2) /\
    ((p1 < p2)%N \/ (p1 = p2 /\ la2 = false)).

(** The pairs [(o, n)] of a chain are an operator and a number, and each
    operator is in the relation [R] with the operator before it ([o0] for
    the first, if any). *)
Fixpoint chain_ok (R : TokenRef -> TokenRef -> Prop) (h : Heap)
    (o0 : option TokenRef) (rest : list (TokenRef * TokenRef)) : Prop :=
  match rest with
  | [] => True
  | (o, n) :: rest' =>
      role_at h o = Some ROperator /\
      role_at h n = Some RNumber /\
      match o0 with
      | Some o' => R o' o
      | None => True
      end /\
      chain_ok R h (Some o) rest'
  end.

(** ** Signs before a number *)

(** The two writes of lines 167-168 applied to the object at [u]. *)
Definition retag (u : TokenRef) (h : Heap) : Heap :=
  match h !! u with
  | Some (OperatorToken v p _ _) => <[u := OperatorToken v p false true]> h
  | _ => h
  end.

Fixpoint retag_all (h : Heap) (signs : list TokenRef) : Heap :=
  match signs with
  | [] => h
  | u :: rest => retag_all (retag u h) rest
  end.

(** [u1 (u2 (... (uk n)))]. *)
Fixpoint signed (signs : list TokenRef) (n : TokenRef) : Expr :=
  match signs with
  | [] => ENum n
  | u :: rest => EUn u (signed rest n)
  end.

(** The pointers [signs] are operators with text [+] or [-], and their
    precedences do not decrease ([p0] being the precedence before the
    first, if any). *)
Fixpoint rising_signs (h : Heap) (p0 : option N) (signs : list TokenRef)
    : Prop :=
  match signs with
  | [] => True
  | u :: rest =>
      exists v p la un,
        h !! u = Some (OperatorToken v p la un) /\
        (v = "+" \/ v = "-") /\
        match p0 with
        | Some p' => (p' <= p)%N
        | None => True
        end /\
        rising_signs h (Some p) rest
  end.

(** ** More worked examples *)

(** [4 + 2 * ( 3 - 1 )] and what the pass returns for it. *)
Definition store_1 : Heap := alloc TOKENS_1.

Definition result_1 : SYResult := mkRes [1; 3; 6; 7; 5; 2; 0] store_1 [] [].

(** What the pass returns for [1 + 2 ) 7]. *)
Definition result_unmatched_close : SYResult :=
  mkRes [1; 2; 0] store_unmatched_close [4] [mismatched_msg].

(** What the pass returns for the lone [-]. *)
Definition result_minus : SYResult :=
  mkRes [0] (<[0 := OperatorToken "-" 1 false true]> store_minus) [] [].

(** [( 1 + 2 ) - 3]. *)
Definition store_paren_sign : Heap :=
  alloc [ SymbolToken "("; NumberToken "1"; OperatorToken "+" 1 true false;
          NumberToken "2"; SymbolToken ")"; OperatorToken "-" 1 true false;
          NumberToken "3" ].

Definition paren_sum : PExpr := PBin 0 (PNum 1) 2 (PNum 3) 4.

(** [7 - 2 - 1] with left-associative and with right-associative [-]. *)
Definition store_left : Heap :=
  alloc [ NumberToken "7"; OperatorToken "-" 1 true false; NumberToken "2";
          OperatorToken "-" 1 true false; NumberToken "1" ].

Definition store_right : Heap :=
  alloc [ NumberToken "7"; OperatorToken "-" 1 false false; NumberToken "2";
          OperatorToken "-" 1 false false; NumberToken "1" ].

(** [- - 6]. *)
Definition store_signs : Heap :=
  alloc [ OperatorToken "-" 1 true false; OperatorToken "-" 1 true false;
          NumberToken "6" ].

(** * Properties *)

(** ** Basic facts about the results monad and string tests *)

Lemma bind_Ok {A B} (r : result A) (k : A -> result B) (b : B) :
  mbind k r = Ok b -> exists a, r = Ok a /\ k a = Ok b.
Proof. destruct r; simpl; intros H; try discriminate. eauto. Qed.

Lemma deref_Some (h : Heap) (r : TokenRef) (t : Token) :
  h !! r = Some t -> deref h r = Ok t.
Proof. unfold deref. intros ->. reflexivity. Qed.

Lemma eqb_neq_false (a b : string) : a <> b -> (a =? b) = false.
Proof. intros H. apply String.eqb_neq. exact H. Qed.

(** The main loop reads its queue with [readToken]. *)
Lemma mainLoop_readToken (s : SYState) (inputQueue : list TokenRef) :
  mainLoop s inputQueue =
    match readToken inputQueue with
    | None => Ok (s, inputQueue)
    | Some (token, rest) =>
        match loopBody s token with
        | Continue s' => mainLoop s' rest
        | Break s' => Ok (s', rest)
        | Fault => Undefined
        end
    end.
Proof. destruct inputQueue; reflexivity. Qed.

(** Case analysis of a computation that ended in [Ok]: every bind has
    succeeded and every test went one way. *)
Ltac split_Ok H :=
  repeat match type of H with
  | (if ?c then _ else _) = _ => destruct c eqn:?
  | mbind _ _ = Ok _ =>
      let a := fresh "a" in
      let Ha := fresh "Ha" in
      apply bind_Ok in H as (a & Ha & H)
  | (let _ := _ in _) = _ => cbv zeta in H
  end.

(** ** The evaluator and its fuel *)

Lemma evaluate_unfold (fuel : nat) (h : Heap) (token : TokenRef)
    (st : list TokenRef) :
  evaluate (S fuel) h (token :: st) =
    (tk ← deref h token;
     if TokenType_eqb (type tk) Number then
       v ← getIntValue tk; Ok (mkEval v st [])
     else if TokenType_eqb (type tk) Operator then
       unary ← get_unary tk;
       if (unary : bool) then
         r ← evaluate fuel h st;
         let rhs := ev_value r in
         if d_value tk =? "!" then
           Ok (mkEval (int64_lnot rhs) (ev_stack r) (ev_cout r))
         else if d_value tk =? "+" then
           Ok (mkEval rhs (ev_stack r) (ev_cout r))
         else if d_value tk =? "-" then
           v ← int64_neg rhs; Ok (mkEval v (ev_stack r) (ev_cout r))
         else Ok (mkEval 0 (ev_stack r) (ev_cout r ++ [error_msg tk])%list)
       else
         r ← evaluate fuel h st;
         l ← evaluate fuel h (ev_stack r);
         let rhs := ev_value r in
         let lhs := ev_value l in
         let out := (ev_cout r ++ ev_cout l)%list in
         if d_value tk =? "+" then
           v ← int64_add lhs rhs; Ok (mkEval v (ev_stack l) out)
         else if d_value tk =? "-" then
           v ← int64_sub lhs rhs; Ok (mkEval v (ev_stack l) out)
         else if d_value tk =? "*" then
           v ← int64_mul lhs rhs; Ok (mkEval v (ev_stack l) out)
         else if d_value tk =? "/" then
           v ← int64_div lhs rhs; Ok (mkEval v (ev_stack l) out)
         else Ok (mkEval 0 (ev_stack l) (out ++ [error_msg tk])%list)
     else Ok (mkEval 0 st [error_msg tk])).
Proof. reflexivity. Qed.

(** The evaluator pops at least one token. *)
Lemma evaluate_consumes (fuel : nat) (h : Heap) :
  forall (st : list TokenRef) (r : EvalResult),
    evaluate fuel h st = Ok r -> length (ev_stack r) < length st.
Proof.
  induction fuel as [|fuel IH]; intros st r; [discriminate|].
  destruct st as [|token st]; [discriminate|].
  rewrite evaluate_unfold. intros H.
  apply bind_Ok in H as (tk & _ & H).
  split_Ok H;
  try (inversion H; subst; clear H; simpl;
       repeat match goal with
       | Hx : evaluate fuel h _ = Ok _ |- _ => apply IH in Hx
       end; lia).
Qed.

(** Every value the evaluator returns is an [int64_t]. *)
Lemma checked_Ok (z v : Z) : checked z = Ok v -> in_int64 v = true.
Proof.
  unfold checked. destruct (in_int64 z) eqn:E; [|discriminate].
  intros [= <-]. exact E.
Qed.

Lemma atoll_in_int64 (s : string) (v : Z) : atoll s = Ok v -> in_int64 v = true.
Proof.
  unfold atoll.
  destruct (skip_spaces s) as [|c s']; [apply checked_Ok|].
  destruct (Ascii.eqb c "-") eqn:E1.
  { apply Ascii.eqb_eq in E1 as ->. apply checked_Ok. }
  destruct (Ascii.eqb c "+") eqn:E2.
  { apply Ascii.eqb_eq in E2 as ->. apply checked_Ok. }
  destruct c as [[] [] [] [] [] [] [] []]; try apply checked_Ok.
Qed.

Lemma evaluate_in_int64 (fuel : nat) (h : Heap) :
  forall (st : list TokenRef) (r : EvalResult),
    evaluate fuel h st = Ok r -> in_int64 (ev_value r) = true.
Proof.
  induction fuel as [|fuel IH]; intros st r; [discriminate|].
  destruct st as [|token st]; [discriminate|].
  rewrite evaluate_unfold. intros H.
  apply bind_Ok in H as (tk & _ & H).
  split_Ok H;
  try (injection H as <-; simpl);
  try reflexivity;
  try (eapply atoll_in_int64; eassumption);
  try (eapply checked_Ok; eassumption);
  try (eapply IH; eassumption).
  - unfold int64_lnot. destruct (_ =? _)%Z; reflexivity.
  - unfold int64_div in *. destruct (_ =? _)%Z; [discriminate|].
    eapply checked_Ok; eassumption.
Qed.

(** Any fuel above the length of the stack gives the same result. *)
Lemma evaluate_fuel (h : Heap) :
  forall (n m : nat) (st : list TokenRef),
    length st < n -> length st < m -> evaluate n h st = evaluate m h st.
Proof.
  induction n as [|n IH]; intros m st Hn Hm; [lia|].
  destruct m as [|m]; [lia|].
  destruct st as [|token st]; [reflexivity|]. simpl in Hn, Hm.
  rewrite !evaluate_unfold. rewrite (IH m st) by lia.
  destruct (deref h token) as [tk| |]; simpl; try reflexivity.
  destruct (TokenType_eqb (type tk) Number); [reflexivity|].
  destruct (TokenType_eqb (type tk) Operator); [|reflexivity].
  destruct (get_unary tk) as [[|]| |]; simpl; try reflexivity.
  destruct (evaluate m h st) as [r| |] eqn:E; simpl; try reflexivity.
  apply evaluate_consumes in E.
  rewrite (IH m (ev_stack r)) by lia. reflexivity.
Qed.

(** None of the primitive operations runs on fuel. *)
Lemma deref_fuel (h : Heap) (r : TokenRef) : deref h r <> OutOfFuel.
Proof. unfold deref. destruct (h !! r); discriminate. Qed.

Lemma get_unary_fuel (tk : Token) : get_unary tk <> OutOfFuel.
Proof. destruct tk; discriminate. Qed.

Lemma checked_fuel (z : Z) : checked z <> OutOfFuel.
Proof. unfold checked. destruct (in_int64 z); discriminate. Qed.

Lemma getIntValue_fuel (tk : Token) : getIntValue tk <> OutOfFuel.
Proof.
  unfold getIntValue, atoll.
  destruct (skip_spaces (d_value tk)) as [|c s]; [apply checked_fuel|].
  destruct (Ascii.eqb c "-") eqn:E1.
  { apply Ascii.eqb_eq in E1 as ->. apply checked_fuel. }
  destruct (Ascii.eqb c "+") eqn:E2.
  { apply Ascii.eqb_eq in E2 as ->. apply checked_fuel. }
  destruct c as [[] [] [] [] [] [] [] []]; try apply checked_fuel.
Qed.

Lemma checked_bind_fuel {B} (z : Z) (k : Z -> result B) :
  (forall v, k v <> OutOfFuel) -> mbind k (checked z) <> OutOfFuel.
Proof.
  intros Hk. unfold checked. destruct (in_int64 z); simpl; [apply Hk|discriminate].
Qed.

(** With fuel above the length of the stack the evaluator never stops for
    lack of fuel: the recursion of the source terminates. *)
Lemma evaluate_terminates (h : Heap) :
  forall (n : nat) (st : list TokenRef),
    length st < n -> evaluate n h st <> OutOfFuel.
Proof.
  induction n as [|n IH]; intros st Hn; [lia|].
  destruct st as [|token st]; [discriminate|]. simpl in Hn.
  rewrite evaluate_unfold.
  pose proof (deref_fuel h token) as Hd.
  destruct (deref h token) as [tk| |]; simpl; try congruence.
  destruct (TokenType_eqb (type tk) Number).
  { pose proof (getIntValue_fuel tk) as Hg.
    destruct (getIntValue tk); simpl; congruence. }
  destruct (TokenType_eqb (type tk) Operator); [|discriminate].
  pose proof (get_unary_fuel tk) as Hu.
  pose proof (IH st ltac:(lia)) as Hst.
  destruct (get_unary tk) as [[|]| |]; simpl; try congruence.
  - destruct (evaluate n h st) as [r| |]; simpl; try congruence.
    repeat match goal with
    | |- context [if ?c then _ else _] => destruct c
    end; try discriminate.
    apply checked_bind_fuel. discriminate.
  - destruct (evaluate n h st) as [r| |] eqn:E; simpl; try congruence.
    apply evaluate_consumes in E.
    pose proof (IH (ev_stack r) ltac:(lia)) as Hl.
    destruct (evaluate n h (ev_stack r)) as [l| |]; simpl; try congruence.
    unfold int64_div.
    repeat match goal with
    | |- context [if ?c then _ else _] => destruct c
    end; try discriminate; apply checked_bind_fuel; discriminate.
Qed.

Lemma evaluateExpressionTokens_terminates (h : Heap) (st : list TokenRef) :
  evaluateExpressionTokens h st <> OutOfFuel.
Proof. apply evaluate_terminates. lia. Qed.

(** The recursive calls inside a call on [token :: st] are calls of
    [evaluateExpressionTokens] on the shorter stacks. *)
Lemma evaluate_sub (h : Heap) (st st' : list TokenRef) :
  length st' <= length st ->
  evaluate (S (length st)) h st' = evaluateExpressionTokens h st'.
Proof. intros H. apply evaluate_fuel; lia. Qed.

(** ** Invariants of the reordering pass *)

Lemma set_unary_same (tk tk' : Token) :
  set_unary tk = Ok tk' -> d_value tk' = d_value tk /\ type tk' = type tk.
Proof. destruct tk; simpl; intros H; inversion H; subst; auto. Qed.

Lemma tagUnary_cases (h h' : Heap) (prev : option TokenRef)
    (token : TokenRef) (tk : Token) :
  tagUnary h prev token tk = Ok h' ->
  h' = h \/ exists tk', set_unary tk = Ok tk' /\ h' = <[token := tk']> h.
Proof.
  unfold tagUnary. intros H.
  destruct ((d_value tk =? "+") || (d_value tk =? "-")); [|left; congruence].
  apply bind_Ok in H as ([|] & _ & H); [|left; congruence].
  apply bind_Ok in H as (tk' & Hs & H). right. exists tk'. split; congruence.
Qed.

Lemma tagUnary_stackable (h h' : Heap) (prev : option TokenRef)
    (token : TokenRef) (tk : Token) (r : TokenRef) :
  h !! token = Some tk -> tagUnary h prev token tk = Ok h' ->
  stackable h r -> stackable h' r.
Proof.
  intros Htk Htag (t & Hr & Ht).
  apply tagUnary_cases in Htag as [->|(tk' & Hs & ->)]; [exists t; auto|].
  destruct (decide (token = r)) as [->|Hne].
  - exists tk'. rewrite lookup_insert_eq. split; [reflexivity|].
    apply set_unary_same in Hs as [-> ->]. congruence.
  - exists t. rewrite lookup_insert_ne by exact Hne. auto.
Qed.

Lemma tagUnary_operatorStack (h h' : Heap) (prev : option TokenRef)
    (token : TokenRef) (tk : Token) (ops : list TokenRef) :
  h !! token = Some tk -> tagUnary h prev token tk = Ok h' ->
  Forall (stackable h) ops -> Forall (stackable h') ops.
Proof.
  intros Htk Htag Hops. eapply Forall_impl; [exact Hops|].
  intros r. exact (tagUnary_stackable _ _ _ _ _ r Htk Htag).
Qed.

Lemma tagUnary_valid (h h' : Heap) (prev : option TokenRef)
    (token : TokenRef) (tk : Token) (r : TokenRef) :
  tagUnary h prev token tk = Ok h' -> is_Some (h !! r) -> is_Some (h' !! r).
Proof.
  intros Htag Hr.
  apply tagUnary_cases in Htag as [->|(tk' & Hs & ->)]; [exact Hr|].
  rewrite lookup_insert. destruct (decide (token = r)); [eauto|exact Hr].
Qed.

(** The unary check succeeds on an operator object once the previous
    pointer is valid. *)
Lemma tagUnary_defined (h : Heap) (prev : option TokenRef)
    (token : TokenRef) (tk : Token) :
  type tk = Operator ->
  (forall q, prev = Some q -> is_Some (h !! q)) ->
  exists h', tagUnary h prev token tk = Ok h'.
Proof.
  intros Hop Hprev. unfold tagUnary.
  destruct ((d_value tk =? "+") || (d_value tk =? "-")); [|eauto].
  assert (exists tk', set_unary tk = Ok tk') as [tk' Hs].
  { destruct tk; try discriminate. simpl. eauto. }
  destruct prev as [q|]; simpl.
  - destruct (Hprev q eq_refl) as [ptk Hq].
    rewrite (deref_Some _ _ _ Hq). simpl.
    destruct (_ || _); [|eauto]. rewrite Hs. simpl. eauto.
  - rewrite Hs. simpl. eauto.
Qed.

(** The operator loop moves a prefix of the operator stack, reversed, onto
    the output stack. *)
Lemma popOperators_moves (h : Heap) (token : TokenRef) (tk : Token) :
  h !! token = Some tk -> type tk = Operator ->
  forall ops out, Forall (stackable h) ops ->
    exists popped kept,
      ops = (popped ++ kept)%list /\
      popOperators h token ops out = Ok (kept, (rev popped ++ out)%list).
Proof.
  intros Htk Hop. induction ops as [|top rest IH]; intros out Hwf.
  - exists [], []. auto.
  - inversion Hwf as [|? ? (ttk & Htop & Hkind) Hrest]; subst.
    simpl. rewrite (deref_Some _ _ _ Htop). simpl.
    destruct (d_value ttk =? "(") eqn:Epar.
    { exists [], (top :: rest). auto. }
    destruct Hkind as [Hp|Hk].
    { apply String.eqb_neq in Epar. contradiction. }
    destruct ttk as [|v1 p1 la1 u1|]; try discriminate.
    destruct tk as [|v2 p2 la2 u2|]; try discriminate.
    simpl. rewrite (deref_Some _ _ _ Htk). simpl.
    destruct (p1 <? p2)%N; [exists [], (top :: rest); auto|].
    destruct ((p1 =? p2)%N && negb la2); [exists [], (top :: rest); auto|].
    destruct (IH (top :: out) Hrest) as (popped & kept & -> & Heq).
    exists (top :: popped), kept. split; [reflexivity|].
    rewrite Heq. simpl. rewrite <- app_assoc. reflexivity.
Qed.

(** The parenthesis loop moves the tokens above the first ["("]. *)
Lemma popToParen_moves (h : Heap) :
  forall ops out, Forall (fun r => is_Some (h !! r)) ops ->
    exists popped kept,
      ops = (popped ++ kept)%list /\
      popToParen h ops out = Ok (kept, (rev popped ++ out)%list) /\
      Forall (fun r => exists v, text_of h r = Some v /\ v <> "(") popped /\
      (kept = [] \/ exists lp kept', kept = lp :: kept' /\ text_of h lp = Some "(").
Proof.
  induction ops as [|top rest IH]; intros out Hv.
  - exists [], []. auto.
  - inversion Hv as [|? ? [ttk Htop] Hrest]; subst.
    simpl. rewrite (deref_Some _ _ _ Htop). simpl.
    destruct (d_value ttk =? "(") eqn:Epar.
    + apply String.eqb_eq in Epar.
      exists [], (top :: rest). repeat split; auto.
      right. exists top, rest. unfold text_of. rewrite Htop. simpl.
      split; congruence.
    + apply String.eqb_neq in Epar.
      destruct (IH (top :: out) Hrest) as (popped & kept & -> & Heq & Hall & Hk).
      exists (top :: popped), kept. repeat split; auto.
      * rewrite Heq. simpl. rewrite <- app_assoc. reflexivity.
      * constructor; [|exact Hall]. exists (d_value ttk).
        unfold text_of. rewrite Htop. auto.
Qed.

Lemma stackable_valid (h : Heap) (r : TokenRef) :
  stackable h r -> is_Some (h !! r).
Proof. intros (tk & H & _). eauto. Qed.

Lemma tagUnary_token (h h' : Heap) (prev : option TokenRef)
    (token : TokenRef) (tk : Token) :
  h !! token = Some tk -> type tk = Operator ->
  tagUnary h prev token tk = Ok h' ->
  exists tk', h' !! token = Some tk' /\ type tk' = Operator /\
              d_value tk' = d_value tk.
Proof.
  intros Htk Hop Htag.
  apply tagUnary_cases in Htag as [->|(tk' & Hs & ->)]; [eauto|].
  exists tk'. rewrite lookup_insert_eq.
  apply set_unary_same in Hs as [-> ->]. auto.
Qed.

(** One iteration on a valid pointer never faults from a well-formed state,
    keeps the state well formed and keeps every pointer valid. *)
Lemma loopBody_wf (s : SYState) (token : TokenRef) :
  wf_state s -> is_Some (heap s !! token) ->
  exists s',
    (loopBody s token = Continue s' \/ loopBody s token = Break s') /\
    wf_state s' /\
    (forall r, is_Some (heap s !! r) -> is_Some (heap s' !! r)).
Proof.
  intros [Hops Hprev] [tk Htk]. unfold loopBody.
  rewrite (deref_Some _ _ _ Htk).
  destruct (TokenType_eqb (type tk) Number).
  { eexists. split; [left; reflexivity|]. split; [|auto].
    split; simpl; [exact Hops|]. intros q [= <-]. eauto. }
  destruct (d_value tk =? "(") eqn:Epar.
  { apply String.eqb_eq in Epar.
    eexists. split; [left; reflexivity|]. split; [|auto].
    split; simpl; [|intros q [= <-]; eauto].
    constructor; [|exact Hops]. exists tk. auto. }
  destruct (TokenType_eqb (type tk) Operator) eqn:Eop.
  { assert (type tk = Operator) as Hop by (destruct tk; auto; discriminate).
    destruct (tagUnary_defined (heap s) (previousToken s) token tk Hop Hprev)
      as [h' Htag].
    rewrite Htag.
    destruct (tagUnary_token _ _ _ _ _ Htk Hop Htag) as (tk' & Htk' & Hop' & _).
    pose proof (tagUnary_operatorStack _ _ _ _ _ _ Htk Htag Hops) as Hops'.
    destruct (popOperators_moves h' token tk' Htk' Hop' (operatorStack s)
                (outputStack s) Hops') as (popped & kept & Hsplit & ->).
    eexists. split; [left; reflexivity|]. split.
    - split; simpl; [|intros q [= <-]; eauto].
      rewrite Hsplit in Hops'. apply Forall_app in Hops' as [_ Hkept].
      constructor; [|exact Hkept]. exists tk'. auto.
    - simpl. intros r. apply (tagUnary_valid _ _ _ _ _ r Htag). }
  destruct (d_value tk =? ")").
  { assert (Forall (fun r => is_Some (heap s !! r)) (operatorStack s)) as Hv.
    { eapply Forall_impl; [exact Hops|]. intros r. apply stackable_valid. }
    destruct (popToParen_moves (heap s) (operatorStack s) (outputStack s) Hv)
      as (popped & kept & Hsplit & -> & _ & Hkept).
    rewrite Hsplit in Hops. apply Forall_app in Hops as [_ Hk].
    destruct Hkept as [->|(lp & kept' & -> & Hlp)].
    - eexists. split; [right; reflexivity|]. split; [|auto].
      split; simpl; auto.
    - unfold text_of in Hlp. destruct (heap s !! lp) as [ltk|] eqn:Eltk;
        [|discriminate]. simpl in Hlp. injection Hlp as Hlp.
      rewrite (deref_Some _ _ _ Eltk), Hlp. simpl.
      eexists. split; [left; reflexivity|]. split; [|auto].
      split; simpl; [|intros q [= <-]; eauto].
      inversion Hk; assumption. }
  eexists. split; [left; reflexivity|]. split; [|auto].
  split; simpl; [exact Hops|intros q [= <-]; eauto].
Qed.

Lemma initialState_wf (h : Heap) : wf_state (initialState h).
Proof. split; simpl; [constructor|discriminate]. Qed.

(** From a well-formed state the main loop runs to its end on every queue
    of valid pointers. *)
Lemma mainLoop_defined :
  forall (queue : list TokenRef) (s : SYState),
    wf_state s -> Forall (fun r => is_Some (heap s !! r)) queue ->
    exists s' q, mainLoop s queue = Ok (s', q) /\ wf_state s'.
Proof.
  induction queue as [|token rest IH]; intros s Hwf Hq.
  - exists s, []. auto.
  - inversion Hq as [|? ? Htok Hrest]; subst.
    destruct (loopBody_wf s token Hwf Htok) as (s' & [E|E] & Hwf' & Hmono);
      simpl; rewrite E.
    + apply IH; [exact Hwf'|].
      eapply Forall_impl; [exact Hrest|]. exact Hmono.
    + exists s', rest. auto.
Qed.

(** The pass is total on queues of valid pointers: no cast of lines 167,
    168, 176 and 177 is ever applied to a token that is no operator. *)
Lemma shuntingYardAlgorithm_defined (h : Heap) (inputQueue : list TokenRef) :
  Forall (fun r => is_Some (h !! r)) inputQueue ->
  exists res, shuntingYardAlgorithm h inputQueue = Ok res.
Proof.
  intros Hq.
  destruct (mainLoop_defined inputQueue (initialState h) (initialState_wf h) Hq)
    as (s' & q & E & _).
  unfold shuntingYardAlgorithm, passFrom. rewrite E. simpl. eauto.
Qed.

(** ** The previous token

    [previousToken] is the token consumed last: it is null before the first
    iteration and the last token read afterwards. *)

Lemma loopBody_previousToken (s s' : SYState) (token : TokenRef) :
  loopBody s token = Continue s' -> previousToken s' = Some token.
Proof.
  unfold loopBody. intros H.
  repeat match type of H with
  | match ?x with _ => _ end = _ => destruct x
  end; try discriminate; injection H as <-; reflexivity.
Qed.

Lemma iterate_app (s : SYState) (pre post : list TokenRef) :
  iterate s (pre ++ post) =
    match iterate s pre with
    | Some s' => iterate s' post
    | None => None
    end.
Proof.
  revert s. induction pre as [|token pre IH]; intros s; [reflexivity|].
  simpl. destruct (loopBody s token); auto.
Qed.

Lemma iterate_previousToken (h : Heap) (consumed : list TokenRef) (s : SYState) :
  iterate (initialState h) consumed = Some s ->
  previousToken s = last consumed.
Proof.
  destruct consumed as [|token pre _] using rev_ind.
  - intros [= <-]. reflexivity.
  - rewrite iterate_app, last_snoc.
    destruct (iterate (initialState h) pre) as [s0|]; [|discriminate].
    simpl. destruct (loopBody s0 token) eqn:E; try discriminate.
    intros [= <-]. exact (loopBody_previousToken _ _ _ E).
Qed.

(** The main loop on [consumed ++ rest] is the main loop on [rest] from
    the state reached after [consumed]. *)
Lemma mainLoop_iterate (s s' : SYState) (consumed rest : list TokenRef) :
  iterate s consumed = Some s' ->
  mainLoop s (consumed ++ rest) = mainLoop s' rest.
Proof.
  revert s. induction consumed as [|token pre IH]; intros s.
  - intros [= <-]. reflexivity.
  - simpl. destruct (loopBody s token); try discriminate. apply IH.
Qed.

(** Every state the main loop goes through is well formed. *)
Lemma iterate_wf (consumed : list TokenRef) :
  forall (s s' : SYState),
    wf_state s -> Forall (fun r => is_Some (heap s !! r)) consumed ->
    iterate s consumed = Some s' -> wf_state s'.
Proof.
  induction consumed as [|token rest IH]; intros s s' Hwf Hq.
  - intros [= <-]. exact Hwf.
  - inversion Hq as [|? ? Htok Hrest]; subst. simpl.
    destruct (loopBody_wf s token Hwf Htok) as (s1 & [E|E] & Hwf1 & Hmono);
      rewrite E; [|discriminate].
    apply IH; [exact Hwf1|].
    eapply Forall_impl; [exact Hrest|]. exact Hmono.
Qed.

(** The two example states are states of the pass. *)
Lemma state_product_sum_wf : wf_state state_product_sum.
Proof.
  split; simpl.
  - constructor; [|constructor].
    exists (OperatorToken "*" 2 true false). split; [reflexivity|].
    right. reflexivity.
  - intros q [= <-]. exists (NumberToken "2"). reflexivity.
Qed.

Lemma state_unmatched_close_wf : wf_state state_unmatched_close.
Proof.
  split; simpl.
  - constructor; [|constructor].
    exists (OperatorToken "+" 1 true false). split; [reflexivity|].
    right. reflexivity.
  - intros q [= <-]. exists (NumberToken "2"). reflexivity.
Qed.

(** ** Rendering of tokens *)

(** C9, as the source has it: [toString] puts the kind name between single
    quotes.  A Number or Symbol token with text [t] is rendered
    ['('<Kind>': 't')'], an Operator token ['('Operator': 't', unary)'] when
    [d_unary] is set and ['('Operator': 't', binary)'] when it is not. *)
Theorem toString_quoted_kind (t : string) (p : N) (la : bool) :
  toString (NumberToken t) = "('Number': '" ++ t ++ "')" /\
  toString (SymbolToken t) = "('Symbol': '" ++ t ++ "')" /\
  toString (OperatorToken t p la true) = "('Operator': '" ++ t ++ "', unary)" /\
  toString (OperatorToken t p la false) = "('Operator': '" ++ t ++ "', binary)".
Proof. repeat split. Qed.

(** C9 as stated fails: the Number token with text [4] is not rendered with
    an unquoted kind name. *)
Lemma toString_unquoted_kind_fails :
  toString (NumberToken "4") <> "(Number: '4')" /\
  toString (NumberToken "4") = "('Number': '4')".
Proof. split; [discriminate|reflexivity]. Qed.

(** ** The two sample expressions *)

(** C1: for [4 + 2 * ( 3 - 1 )] the pass returns the postfix order
    [4 2 3 1 - * +] (top of the stack first: [+ * - 1 3 2 4]) and the
    evaluator returns 8, leaving the stack empty and printing nothing. *)
Theorem run_TOKENS_1 :
  reorder TOKENS_1 = Ok ([1; 3; 6; 7; 5; 2; 0], [], []) /\
  run TOKENS_1 = Ok (mkEval 8 [] []).
Proof. split; vm_compute; reflexivity. Qed.

(** C2: for [- 6 + 2 * ( - 3 - 1 )] the evaluator returns -14; the [-] at
    the start and the [-] after the parenthesis have been made unary and
    right-associative, the [-] after [3] is still binary. *)
Theorem run_TOKENS :
  run TOKENS = Ok (mkEval (-14) [] []) /\
  reorder TOKENS = Ok ([2; 4; 8; 9; 6; 7; 3; 0; 1], [], []) /\
  objects_after TOKENS =
    Ok [ Some (OperatorToken "-" 1 false true);
         Some (NumberToken "6");
         Some (OperatorToken "+" 1 true false);
         Some (NumberToken "2");
         Some (OperatorToken "*" 2 true false);
         Some (SymbolToken "(");
         Some (OperatorToken "-" 1 false true);
         Some (NumberToken "3");
         Some (OperatorToken "-" 1 true false);
         Some (NumberToken "1");
         Some (SymbolToken ")") ].
Proof. repeat split; vm_compute; reflexivity. Qed.

(** The writes of the pass go to the object, not to a copy: when the two
    [-] of [- 6 - 2] are one object, the unary tag given at the first
    position is what the loop and the evaluator read at the second. *)
Lemma shared_operator_object :
  run [ OperatorToken "-" 1 true false; NumberToken "6";
        OperatorToken "-" 1 true false; NumberToken "2" ] =
    Ok (mkEval (-8) [] []) /\
  runOn (alloc [ OperatorToken "-" 1 true false; NumberToken "6";
                 NumberToken "2" ]) [0; 1; 0; 2] =
    Ok (mkEval 2 [1] []).
Proof. split; vm_compute; reflexivity. Qed.

(** ** Unary tagging *)

Lemma tagUnary_unary (s : SYState) (token : TokenRef) (v : string) (p : N)
    (la u : bool) :
  v = "+" \/ v = "-" -> unary_context s ->
  tagUnary (heap s) (previousToken s) token (OperatorToken v p la u) =
    Ok (<[token := OperatorToken v p false true]> (heap s)).
Proof.
  intros Hv Hctx. unfold tagUnary. simpl.
  replace ((v =? "+") || (v =? "-")) with true
    by (destruct Hv as [-> | ->]; reflexivity).
  destruct Hctx as [-> | (q & ptk & -> & Hq & Hk)]; [reflexivity|].
  rewrite (deref_Some _ _ _ Hq). simpl.
  replace (TokenType_eqb (type ptk) Operator || TokenType_eqb (type ptk) Symbol)
    with true by (destruct Hk as [-> | ->]; reflexivity).
  reflexivity.
Qed.

Lemma tagUnary_number (s : SYState) (token : TokenRef) (tk : Token) :
  number_context s ->
  tagUnary (heap s) (previousToken s) token tk = Ok (heap s).
Proof.
  intros (q & ptk & -> & Hq & Hk). unfold tagUnary.
  destruct (_ || _); [|reflexivity].
  rewrite (deref_Some _ _ _ Hq). simpl. rewrite Hk. reflexivity.
Qed.

(** The operator branch of the loop body, for an operator whose text is not
    ["("]. *)
Lemma loopBody_operator (s : SYState) (token : TokenRef) (tk : Token) :
  heap s !! token = Some tk -> type tk = Operator -> d_value tk <> "(" ->
  loopBody s token =
    match tagUnary (heap s) (previousToken s) token tk with
    | Ok h' =>
        match popOperators h' token (operatorStack s) (outputStack s) with
        | Ok (ops, out) =>
            Continue (mkSY h' out (token :: ops) (Some token) (cout s))
        | _ => Fault
        end
    | _ => Fault
    end.
Proof.
  intros Htk Hop Hpar. unfold loopBody. rewrite (deref_Some _ _ _ Htk).
  rewrite Hop. simpl. rewrite (eqb_neq_false _ _ Hpar). reflexivity.
Qed.

(** C3: in a state of the pass, an operator token whose text is [+] or [-]
    is processed without fault; when the previous token is absent, an
    operator or a symbol, the object is rewritten with [d_unary = true] and
    [d_leftAssociative = false] (and no other object changes); when the
    previous token is a number the store is unchanged.  The states of the
    pass are the well-formed ones, and their [previousToken] is the token
    consumed last.  The check depends on the state at the occurrence only:
    in [- 3 - 1] the first [-] ends unary and the second, with the same
    text, stays binary. *)
Theorem unary_tagging :
  (forall (s : SYState) (token : TokenRef) (v : string) (p : N) (la u : bool),
     wf_state s ->
     heap s !! token = Some (OperatorToken v p la u) ->
     v = "+" \/ v = "-" ->
     exists s', loopBody s token = Continue s' /\
       (unary_context s ->
          heap s' = <[token := OperatorToken v p false true]> (heap s)) /\
       (number_context s -> heap s' = heap s)) /\
  (forall (h : Heap) (consumed : list TokenRef) (s : SYState),
     Forall (fun r => is_Some (h !! r)) consumed ->
     iterate (initialState h) consumed = Some s ->
     wf_state s /\ previousToken s = last consumed) /\
  objects_after [ OperatorToken "-" 1 true false; NumberToken "3";
                  OperatorToken "-" 1 true false; NumberToken "1" ] =
    Ok [ Some (OperatorToken "-" 1 false true); Some (NumberToken "3");
         Some (OperatorToken "-" 1 true false); Some (NumberToken "1") ].
Proof.
  split; [|split; [|vm_compute; reflexivity]]; cycle 1.
  { intros h consumed s Hq Hit. split.
    - exact (iterate_wf consumed _ s (initialState_wf h) Hq Hit).
    - exact (iterate_previousToken h consumed s Hit). }
  intros s token v p la u Hwf Htk Hv.
  assert (v <> "(") as Hpar by (destruct Hv as [-> | ->]; discriminate).
  rewrite (loopBody_operator s token _ Htk eq_refl Hpar).
  destruct (tagUnary_defined (heap s) (previousToken s) token
              (OperatorToken v p la u) eq_refl (proj2 Hwf)) as [h' Htag].
  rewrite Htag.
  destruct (tagUnary_token _ _ _ _ _ Htk eq_refl Htag) as (tk' & Htk' & Hop' & _).
  pose proof (tagUnary_operatorStack _ _ _ _ _ _ Htk Htag (proj1 Hwf))
    as Hops'.
  destruct (popOperators_moves h' token tk' Htk' Hop' (operatorStack s)
              (outputStack s) Hops') as (popped & kept & _ & ->).
  eexists. split; [reflexivity|]. simpl. split.
  - intros Hctx. rewrite (tagUnary_unary s token v p la u Hv Hctx) in Htag.
    congruence.
  - intros Hctx. rewrite (tagUnary_number s token _ Hctx) in Htag. congruence.
Qed.

Lemma unary_tagging_witness :
  wf_state (initialState store_minus) /\
  store_minus !! 0 = Some (OperatorToken "-" 1 true false) /\
  exists s', loopBody (initialState store_minus) 0 = Continue s' /\
    (unary_context (initialState store_minus) ->
       heap s' = <[0 := OperatorToken "-" 1 false true]> store_minus) /\
    (number_context (initialState store_minus) -> heap s' = store_minus).
Proof.
  split; [apply initialState_wf|]. split; [reflexivity|].
  apply (proj1 unary_tagging (initialState store_minus) 0 "-" 1%N true false).
  - apply initialState_wf.
  - reflexivity.
  - right. reflexivity.
Defined.

(** ** The pop-before-push loop *)

(** One more piece of output never gives back the untouched stacks. *)
Lemma popOperators_grows (h : Heap) (token : TokenRef) :
  forall ops out ops' out',
    popOperators h token ops out = Ok (ops', out') ->
    length out <= length out'.
Proof.
  induction ops as [|top rest IH]; intros out ops' out' H; simpl in H.
  - inversion H; subst. lia.
  - split_Ok H; try (inversion H; subst; lia).
    apply IH in H. simpl in H. lia.
Qed.

Section PopBeforePush.
Variables (h : Heap) (token o1 : TokenRef) (rest out : list TokenRef).
Variables (v1 v2 : string) (p1 p2 : N) (la1 la2 u1 u2 : bool).
Hypothesis Hcur : h !! token = Some (OperatorToken v2 p2 la2 u2).
Hypothesis Htop : h !! o1 = Some (OperatorToken v1 p1 la1 u1).
Hypothesis Hnp : v1 <> "(".

Lemma popOperators_operator_top :
  popOperators h token (o1 :: rest) out =
    if (p1 <? p2)%N then Ok (o1 :: rest, out)
    else if (p1 =? p2)%N && negb la2 then Ok (o1 :: rest, out)
    else popOperators h token rest (o1 :: out).
Proof.
  simpl. rewrite (deref_Some _ _ _ Htop). simpl.
  rewrite (eqb_neq_false _ _ Hnp).
  rewrite (deref_Some _ _ _ Hcur). reflexivity.
Qed.

Lemma pops_top_iff :
  pops_top h token o1 rest out <->
  (p2 < p1)%N \/ (p1 = p2 /\ la2 = true).
Proof.
  unfold pops_top. rewrite popOperators_operator_top.
  destruct (N.ltb_spec p1 p2) as [Hlt|Hge].
  { split; [intros [_ H]; congruence|].
    intros [H|[H _]]; lia. }
  destruct (N.eqb_spec p1 p2) as [Heq|Hne]; destruct la2; simpl.
  - split; [auto|]. intros _. split; [reflexivity|].
    intros H. apply popOperators_grows in H. simpl in H. lia.
  - split; [intros [_ H]; congruence|].
    intros [H|[_ H]]; [lia|discriminate].
  - split; [intros _; left; lia|]. intros _. split; [reflexivity|].
    intros H. apply popOperators_grows in H. simpl in H. lia.
  - split; [intros _; left; lia|]. intros _. split; [reflexivity|].
    intros H. apply popOperators_grows in H. simpl in H. lia.
Qed.

Lemma stops_at_top_iff :
  stops_at_top h token o1 rest out <->
  (p1 < p2)%N \/ (p1 = p2 /\ la2 = false).
Proof.
  unfold stops_at_top. rewrite popOperators_operator_top.
  destruct (N.ltb_spec p1 p2) as [Hlt|Hge]; [split; auto|].
  destruct (N.eqb_spec p1 p2) as [Heq|Hne]; destruct la2; simpl.
  - split; [|intros [H|[_ H]]; [lia|discriminate]].
    intros H. apply popOperators_grows in H. simpl in H. lia.
  - split; auto.
  - split; [|intros [H|[H _]]; [lia|contradiction]].
    intros H. apply popOperators_grows in H. simpl in H. lia.
  - split; [|intros [H|[H _]]; [lia|contradiction]].
    intros H. apply popOperators_grows in H. simpl in H. lia.
Qed.
End PopBeforePush.

Lemma stops_at_paren (h : Heap) (token o1 : TokenRef) (rest out : list TokenRef) :
  text_of h o1 = Some "(" -> stops_at_top h token o1 rest out.
Proof.
  unfold text_of, stops_at_top. intros H.
  destruct (h !! o1) as [tk|] eqn:E; [|discriminate].
  simpl in H. injection H as H.
  simpl. rewrite (deref_Some _ _ _ E). simpl. rewrite H. reflexivity.
Qed.

(** C4: let the incoming operator [token] (text other than ["("]) have
    precedence [p2] and associativity [la2] once the unary check has run.
    For a top [o1] of the operator stack that is an operator with
    precedence [p1] and text other than ["("], the loop pops [o1] onto the
    output stack exactly when [p1 > p2], or [p1 = p2] and [la2] holds, and
    stops without popping exactly when [p1 < p2], or [p1 = p2] and [la2]
    does not hold; it stops without popping at a top whose text is ["("].
    When the loop is over, [token] is pushed on what is left of the
    operator stack, above the operators kept and after those moved. *)
Theorem pop_before_push (s : SYState) (token : TokenRef) (tk : Token)
    (h' : Heap) (v2 : string) (p2 : N) (la2 u2 : bool) :
  wf_state s ->
  heap s !! token = Some tk -> type tk = Operator -> d_value tk <> "(" ->
  tagUnary (heap s) (previousToken s) token tk = Ok h' ->
  h' !! token = Some (OperatorToken v2 p2 la2 u2) ->
  (forall o1 rest out v1 p1 la1 u1,
     h' !! o1 = Some (OperatorToken v1 p1 la1 u1) -> v1 <> "(" ->
     (pops_top h' token o1 rest out <->
        (p1 > p2)%N \/ (p1 = p2 /\ la2 = true)) /\
     (stops_at_top h' token o1 rest out <->
        (p1 < p2)%N \/ (p1 = p2 /\ la2 = false))) /\
  (forall o1 rest out,
     text_of h' o1 = Some "(" -> stops_at_top h' token o1 rest out) /\
  (exists popped kept,
     operatorStack s = (popped ++ kept)%list /\
     popOperators h' token (operatorStack s) (outputStack s) =
       Ok (kept, (rev popped ++ outputStack s)%list) /\
     loopBody s token =
       Continue (mkSY h' (rev popped ++ outputStack s)%list (token :: kept)
                      (Some token) (cout s))).
Proof.
  intros Hwf Htk Hop Hpar Htag Hcur. split; [|split].
  - intros o1 rest out v1 p1 la1 u1 Htop Hnp. split.
    + rewrite (pops_top_iff h' token o1 rest out v1 v2 p1 p2 la1 la2 u1 u2
                 Hcur Htop Hnp).
      split; (intros [H|H]; [left; lia|right; exact H]).
    + apply (stops_at_top_iff h' token o1 rest out v1 v2 p1 p2 la1 la2 u1 u2
               Hcur Htop Hnp).
  - intros o1 rest out. apply stops_at_paren.
  - pose proof (tagUnary_operatorStack _ _ _ _ _ _ Htk Htag (proj1 Hwf))
      as Hops'.
    destruct (popOperators_moves h' token _ Hcur eq_refl (operatorStack s)
                (outputStack s) Hops') as (popped & kept & Hsplit & Heq).
    exists popped, kept. split; [exact Hsplit|]. split; [exact Heq|].
    rewrite (loopBody_operator s token tk Htk Hop Hpar), Htag, Heq.
    reflexivity.
Qed.

Lemma pop_before_push_witness :
  wf_state state_product_sum /\
  store_product_sum !! 3 = Some (OperatorToken "+" 1 true false) /\
  tagUnary store_product_sum (Some 2) 3 (OperatorToken "+" 1 true false) =
    Ok store_product_sum /\
  pops_top store_product_sum 3 1 [] [2; 0] /\
  loopBody state_product_sum 3 =
    Continue (mkSY store_product_sum [1; 2; 0] [3] (Some 3) []).
Proof.
  pose proof state_product_sum_wf as Hwf.
  split; [exact Hwf|]. split; [reflexivity|]. split; [reflexivity|].
  destruct (pop_before_push state_product_sum 3 (OperatorToken "+" 1 true false)
              store_product_sum "+" 1%N true false Hwf eq_refl eq_refl
              ltac:(discriminate) eq_refl eq_refl) as (Hdec & _ & _).
  split.
  - apply (Hdec 1 [] [2; 0] "*" 2%N true false eq_refl ltac:(discriminate)).
    left. reflexivity.
  - reflexivity.
Defined.

(** ** Closing parenthesis and final drain *)

Lemma drain_rev (ops out : list TokenRef) :
  drain ops out = (rev ops ++ out)%list.
Proof.
  revert out. induction ops as [|top rest IH]; intros out; [reflexivity|].
  simpl. rewrite IH, <- app_assoc. reflexivity.
Qed.

(** The branch of the loop body taken by a Symbol token [")"]. *)
Lemma loopBody_rparen (s : SYState) (token : TokenRef) :
  heap s !! token = Some (SymbolToken ")") ->
  loopBody s token =
    match popToParen (heap s) (operatorStack s) (outputStack s) with
    | Ok (ops, out) =>
        match ops with
        | [] =>
            Break (mkSY (heap s) out ops (previousToken s)
                        (cout s ++ [mismatched_msg])%list)
        | top :: ops' =>
            match deref (heap s) top with
            | Ok ttk =>
                if negb (d_value ttk =? "(") then
                  Break (mkSY (heap s) out ops (previousToken s)
                              (cout s ++ [mismatched_msg])%list)
                else Continue (mkSY (heap s) out ops' (Some token) (cout s))
            | _ => Fault
            end
        end
    | _ => Fault
    end.
Proof. intros Htk. unfold loopBody. rewrite (deref_Some _ _ _ Htk). reflexivity. Qed.

(** C5: on a Symbol token [")"], the tokens above the first ["("] of the
    operator stack ([popped], none of them with text ["("]) are moved to the
    output stack.  If no ["("] is found the operator stack is then empty:
    the diagnostic is printed, the loop is left, the rest of the queue stays
    unread and the pass returns the output stack as it stands (the final
    drain finds nothing to move).  Otherwise the ["("] is taken off the
    operator stack, is not put on the output stack, and the pass goes on. *)
Theorem closing_parenthesis (s : SYState) (token : TokenRef)
    (rest : list TokenRef) :
  wf_state s ->
  heap s !! token = Some (SymbolToken ")") ->
  exists popped kept,
    operatorStack s = (popped ++ kept)%list /\
    Forall (fun r => exists v, text_of (heap s) r = Some v /\ v <> "(") popped /\
    ((kept = [] /\
      loopBody s token =
        Break (mkSY (heap s) (rev popped ++ outputStack s)%list []
                    (previousToken s) (cout s ++ [mismatched_msg])%list) /\
      passFrom s (token :: rest) =
        Ok (mkRes (rev popped ++ outputStack s)%list (heap s) rest
                  (cout s ++ [mismatched_msg])%list))
     \/
     (exists lp kept',
        kept = lp :: kept' /\ text_of (heap s) lp = Some "(" /\
        loopBody s token =
          Continue (mkSY (heap s) (rev popped ++ outputStack s)%list kept'
                         (Some token) (cout s)) /\
        passFrom s (token :: rest) =
          passFrom (mkSY (heap s) (rev popped ++ outputStack s)%list kept'
                         (Some token) (cout s)) rest)).
Proof.
  intros [Hops _] Htk.
  assert (Forall (fun r => is_Some (heap s !! r)) (operatorStack s)) as Hv.
  { eapply Forall_impl; [exact Hops|]. intros r. apply stackable_valid. }
  destruct (popToParen_moves (heap s) (operatorStack s) (outputStack s) Hv)
    as (popped & kept & Hsplit & Heq & Hall & Hkept).
  exists popped, kept. split; [exact Hsplit|]. split; [exact Hall|].
  pose proof (loopBody_rparen s token Htk) as Hbody. rewrite Heq in Hbody.
  destruct Hkept as [->|(lp & kept' & -> & Hlp)].
  - left. split; [reflexivity|]. split; [exact Hbody|].
    unfold passFrom. simpl. rewrite Hbody. reflexivity.
  - right. exists lp, kept'. split; [reflexivity|]. split; [exact Hlp|].
    unfold text_of in Hlp.
    destruct (heap s !! lp) as [ltk|] eqn:Eltk; [|discriminate].
    simpl in Hlp. injection Hlp as Hlp.
    rewrite (deref_Some _ _ _ Eltk), Hlp in Hbody. simpl in Hbody.
    split; [exact Hbody|].
    unfold passFrom. simpl. rewrite Hbody. reflexivity.
Qed.

Lemma closing_parenthesis_witness :
  wf_state state_unmatched_close /\
  store_unmatched_close !! 3 = Some (SymbolToken ")") /\
  passFrom state_unmatched_close [3; 4] =
    Ok (mkRes [1; 2; 0] store_unmatched_close [4] [mismatched_msg]).
Proof.
  pose proof state_unmatched_close_wf as Hwf.
  split; [exact Hwf|]. split; [reflexivity|].
  destruct (closing_parenthesis state_unmatched_close 3 [4] Hwf eq_refl)
    as (popped & kept & Hsplit & _ & [(-> & _ & Hpass)|(lp & kept' & -> & Hlp & _)]).
  - simpl in Hsplit. rewrite app_nil_r in Hsplit. subst popped. exact Hpass.
  - simpl in Hsplit.
    destruct popped as [|a [|b popped]]; try discriminate Hsplit.
    injection Hsplit as <-. vm_compute in Hlp. discriminate Hlp.
Defined.

(** C6: however the main loop is left (queue exhausted, or early on a
    mismatched parenthesis), the pass returns the output stack with every
    token of the operator stack moved onto it, the top of the operator stack
    first, so that the operator stack appears reversed above the output;
    nothing is tested and nothing is printed at this stage.  For
    [( 1 + 2] the ["("] is never matched and ends on top of the returned
    stack, with no diagnostic. *)
Theorem final_drain :
  (forall ops out, drain ops out = (rev ops ++ out)%list) /\
  (forall s queue s' q,
     mainLoop s queue = Ok (s', q) ->
     passFrom s queue =
       Ok (mkRes (rev (operatorStack s') ++ outputStack s')%list
                 (heap s') q (cout s'))) /\
  reorder [ SymbolToken "("; NumberToken "1";
            OperatorToken "+" 1 true false; NumberToken "2" ] =
    Ok ([0; 2; 3; 1], [], []).
Proof.
  split; [exact drain_rev|]. split; [|vm_compute; reflexivity].
  intros s queue s' q H. unfold passFrom. rewrite H. simpl.
  unfold finish. rewrite drain_rev. reflexivity.
Qed.

Lemma final_drain_witness :
  mainLoop (initialState store_open) [0; 1] =
    Ok (mkSY store_open [1] [0] (Some 1) [], []) /\
  passFrom (initialState store_open) [0; 1] =
    Ok (mkRes [0; 1] store_open [] []).
Proof.
  assert (mainLoop (initialState store_open) [0; 1] =
            Ok (mkSY store_open [1] [0] (Some 1) [], []))
    as Hloop by reflexivity.
  split; [exact Hloop|].
  exact (proj1 (proj2 final_drain) (initialState store_open) [0; 1] _ _ Hloop).
Defined.

(** ** The evaluator on operators *)

#[local] Arguments evaluate : simpl never.

(** A call on [token :: st], written with the calls it makes on the
    shorter stacks. *)
Lemma evaluateExpressionTokens_cons (h : Heap) (token : TokenRef)
    (st : list TokenRef) :
  evaluateExpressionTokens h (token :: st) =
    (tk ← deref h token;
     if TokenType_eqb (type tk) Number then
       v ← getIntValue tk; Ok (mkEval v st [])
     else if TokenType_eqb (type tk) Operator then
       unary ← get_unary tk;
       if (unary : bool) then
         r ← evaluateExpressionTokens h st;
         let rhs := ev_value r in
         if d_value tk =? "!" then
           Ok (mkEval (int64_lnot rhs) (ev_stack r) (ev_cout r))
         else if d_value tk =? "+" then
           Ok (mkEval rhs (ev_stack r) (ev_cout r))
         else if d_value tk =? "-" then
           v ← int64_neg rhs; Ok (mkEval v (ev_stack r) (ev_cout r))
         else Ok (mkEval 0 (ev_stack r) (ev_cout r ++ [error_msg tk])%list)
       else
         r ← evaluateExpressionTokens h st;
         l ← evaluateExpressionTokens h (ev_stack r);
         let rhs := ev_value r in
         let lhs := ev_value l in
         let out := (ev_cout r ++ ev_cout l)%list in
         if d_value tk =? "+" then
           v ← int64_add lhs rhs; Ok (mkEval v (ev_stack l) out)
         else if d_value tk =? "-" then
           v ← int64_sub lhs rhs; Ok (mkEval v (ev_stack l) out)
         else if d_value tk =? "*" then
           v ← int64_mul lhs rhs; Ok (mkEval v (ev_stack l) out)
         else if d_value tk =? "/" then
           v ← int64_div lhs rhs; Ok (mkEval v (ev_stack l) out)
         else Ok (mkEval 0 (ev_stack l) (out ++ [error_msg tk])%list)
     else Ok (mkEval 0 st [error_msg tk])).
Proof.
  unfold evaluateExpressionTokens at 1. cbn [length].
  rewrite evaluate_unfold.
  change (evaluate (S (length st)) h st) with (evaluateExpressionTokens h st).
  destruct (deref h token) as [tk| |]; simpl; try reflexivity.
  destruct (TokenType_eqb (type tk) Number); [reflexivity|].
  destruct (TokenType_eqb (type tk) Operator); [|reflexivity].
  destruct (get_unary tk) as [[|]| |]; simpl; try reflexivity.
  destruct (evaluateExpressionTokens h st) as [r| |] eqn:E; simpl;
    try reflexivity.
  apply evaluate_consumes in E.
  rewrite (evaluate_sub h st (ev_stack r)) by lia. reflexivity.
Qed.

Lemma checked_bind {B} (z : Z) (k : Z -> result B) :
  mbind k (checked z) = if in_int64 z then k z else Undefined.
Proof. unfold checked. destruct (in_int64 z); reflexivity. Qed.

(** C7: a binary operator token evaluates its right operand on the stack
    below it, then its left operand on what the right operand left, and
    returns [lhs + rhs], [lhs - rhs], [lhs * rhs] or the truncated quotient
    [lhs / rhs]; a zero divisor is not tested and the division is then
    undefined, as is any result outside [int64_t].  A unary operator token
    evaluates one operand and returns 1 or 0 for [!] according to the
    operand being 0 or not, the operand for [+], its opposite for [-]. *)
Theorem operator_semantics (h : Heap) (token : TokenRef) (st : list TokenRef)
    (v : string) (p : N) (la : bool) :
  (forall r l,
     h !! token = Some (OperatorToken v p la false) ->
     evaluateExpressionTokens h st = Ok r ->
     evaluateExpressionTokens h (ev_stack r) = Ok l ->
     let rhs := ev_value r in
     let lhs := ev_value l in
     let out := (ev_cout r ++ ev_cout l)%list in
     (v = "+" ->
        evaluateExpressionTokens h (token :: st) =
          if in_int64 (lhs + rhs) then Ok (mkEval (lhs + rhs) (ev_stack l) out)
          else Undefined) /\
     (v = "-" ->
        evaluateExpressionTokens h (token :: st) =
          if in_int64 (lhs - rhs) then Ok (mkEval (lhs - rhs) (ev_stack l) out)
          else Undefined) /\
     (v = "*" ->
        evaluateExpressionTokens h (token :: st) =
          if in_int64 (lhs * rhs) then Ok (mkEval (lhs * rhs) (ev_stack l) out)
          else Undefined) /\
     (v = "/" ->
        evaluateExpressionTokens h (token :: st) =
          if (rhs =? 0)%Z then Undefined
          else if in_int64 (Z.quot lhs rhs)
               then Ok (mkEval (Z.quot lhs rhs) (ev_stack l) out)
               else Undefined)) /\
  (forall r,
     h !! token = Some (OperatorToken v p la true) ->
     evaluateExpressionTokens h st = Ok r ->
     let rhs := ev_value r in
     (v = "!" ->
        evaluateExpressionTokens h (token :: st) =
          Ok (mkEval (if (rhs =? 0)%Z then 1 else 0) (ev_stack r) (ev_cout r))) /\
     (v = "+" ->
        evaluateExpressionTokens h (token :: st) =
          Ok (mkEval rhs (ev_stack r) (ev_cout r))) /\
     (v = "-" ->
        evaluateExpressionTokens h (token :: st) =
          if in_int64 (- rhs) then Ok (mkEval (- rhs) (ev_stack r) (ev_cout r))
          else Undefined)).
Proof.
  split.
  - intros r l Htk Hr Hl rhs lhs out.
    rewrite evaluateExpressionTokens_cons, (deref_Some _ _ _ Htk).
    simpl. rewrite Hr. simpl. rewrite Hl. simpl.
    fold rhs lhs out.
    repeat split; intros ->; simpl;
      unfold int64_add, int64_sub, int64_mul, int64_div;
      try (rewrite checked_bind; reflexivity).
    destruct (rhs =? 0)%Z; [reflexivity|]. rewrite checked_bind. reflexivity.
  - intros r Htk Hr rhs.
    rewrite evaluateExpressionTokens_cons, (deref_Some _ _ _ Htk).
    simpl. rewrite Hr. simpl. fold rhs.
    repeat split; intros ->; simpl; try reflexivity.
    unfold int64_neg. rewrite checked_bind. reflexivity.
Qed.

Lemma operator_semantics_witness :
  store_quotient !! 0 = Some (OperatorToken "/" 2 true false) /\
  evaluateExpressionTokens store_quotient [1; 2] = Ok (mkEval 2 [2] []) /\
  evaluateExpressionTokens store_quotient [2] = Ok (mkEval 7 [] []) /\
  evaluateExpressionTokens store_quotient [0; 1; 2] = Ok (mkEval 3 [] []).
Proof.
  assert (evaluateExpressionTokens store_quotient [1; 2] = Ok (mkEval 2 [2] []))
    as Hr by reflexivity.
  assert (evaluateExpressionTokens store_quotient [2] = Ok (mkEval 7 [] []))
    as Hl by reflexivity.
  split; [reflexivity|]. split; [exact Hr|]. split; [exact Hl|].
  destruct (proj1 (operator_semantics store_quotient 0 [1; 2] "/" 2%N true)
              (mkEval 2 [2] []) (mkEval 7 [] []) eq_refl Hr Hl)
    as (_ & _ & _ & Hdiv).
  exact (Hdiv eq_refl).
Defined.

(** ** The evaluator on tokens it does not know *)

(** C8, as the source has it: a Symbol token is answered at once by the
    diagnostic naming it and the value 0.  An operator with a text the
    evaluator does not know is answered the same way once its operands have
    been evaluated (one for a unary operator, two for a binary one), the
    diagnostic coming after what the operands printed; the answer is given
    when the evaluation of the operands returns. *)
Theorem unknown_token (h : Heap) (token : TokenRef) (st : list TokenRef) :
  (forall v,
     h !! token = Some (SymbolToken v) ->
     evaluateExpressionTokens h (token :: st) =
       Ok (mkEval 0 st [error_msg (SymbolToken v)])) /\
  (forall v p la r,
     h !! token = Some (OperatorToken v p la true) -> unknown_unary v ->
     evaluateExpressionTokens h st = Ok r ->
     evaluateExpressionTokens h (token :: st) =
       Ok (mkEval 0 (ev_stack r)
             (ev_cout r ++ [error_msg (OperatorToken v p la true)])%list)) /\
  (forall v p la r l,
     h !! token = Some (OperatorToken v p la false) -> unknown_binary v ->
     evaluateExpressionTokens h st = Ok r ->
     evaluateExpressionTokens h (ev_stack r) = Ok l ->
     evaluateExpressionTokens h (token :: st) =
       Ok (mkEval 0 (ev_stack l)
             ((ev_cout r ++ ev_cout l) ++
              [error_msg (OperatorToken v p la false)])%list)) /\
  (forall tk, error_msg tk = "Error evaluating token: " ++ toString tk ++ endl).
Proof.
  split; [|split; [|split]].
  - intros v Htk.
    rewrite evaluateExpressionTokens_cons, (deref_Some _ _ _ Htk).
    reflexivity.
  - intros v p la r Htk (H1 & H2 & H3) Hr.
    rewrite evaluateExpressionTokens_cons, (deref_Some _ _ _ Htk).
    simpl. rewrite Hr. simpl.
    rewrite !eqb_neq_false by assumption. reflexivity.
  - intros v p la r l Htk (H1 & H2 & H3 & H4) Hr Hl.
    rewrite evaluateExpressionTokens_cons, (deref_Some _ _ _ Htk).
    simpl. rewrite Hr. simpl. rewrite Hl. simpl.
    rewrite !eqb_neq_false by assumption. reflexivity.
  - reflexivity.
Qed.

Lemma unknown_token_witness :
  store_caret !! 0 = Some (OperatorToken "^" 3 true false) /\
  unknown_binary "^" /\
  evaluateExpressionTokens store_caret [1; 2] = Ok (mkEval 2 [2] []) /\
  evaluateExpressionTokens store_caret [2] = Ok (mkEval 7 [] []) /\
  evaluateExpressionTokens store_caret [0; 1; 2] =
    Ok (mkEval 0 [] [error_msg (OperatorToken "^" 3 true false)]).
Proof.
  assert (unknown_binary "^") as Hv by (repeat split; discriminate).
  assert (evaluateExpressionTokens store_caret [1; 2] = Ok (mkEval 2 [2] []))
    as Hr by reflexivity.
  assert (evaluateExpressionTokens store_caret [2] = Ok (mkEval 7 [] []))
    as Hl by reflexivity.
  split; [reflexivity|]. split; [exact Hv|]. split; [exact Hr|].
  split; [exact Hl|].
  exact (proj1 (proj2 (proj2 (unknown_token store_caret 0 [1; 2])))
           "^" 3%N true (mkEval 2 [2] []) (mkEval 7 [] []) eq_refl Hv Hr Hl).
Defined.

(** C8 as stated fails: a binary operator with the unknown text [^] alone
    on the stack is popped, and the evaluator then asks for the top of an
    empty stack; it neither prints a diagnostic nor returns 0.  The pass
    itself produces this stack from the one-token input [^]. *)
Lemma unknown_operator_alone :
  store_caret !! 0 = Some (OperatorToken "^" 3 true false) /\
  evaluateExpressionTokens store_caret [0] = Undefined /\
  ~ (exists e, evaluateExpressionTokens store_caret [0] = Ok e /\
               ev_value e = 0%Z) /\
  reorder [OperatorToken "^" 3 true false] = Ok ([0], [], []) /\
  run [OperatorToken "^" 3 true false] = Undefined.
Proof.
  assert (evaluateExpressionTokens store_caret [0] = Undefined) as H
    by reflexivity.
  split; [reflexivity|]. split; [exact H|].
  split; [|split; vm_compute; reflexivity].
  intros (e & He & _). rewrite H in He. discriminate.
Qed.

(** C10: a binary operator token whose text is none of [+ - * /] has its
    two operands evaluated before anything else: when they return, the
    diagnostic is printed after theirs, 0 is returned, and at least two
    more tokens have left the stack; when one of them has no defined result
    the error branch is not reached at all. *)
Theorem unknown_binary_not_atomic (h : Heap) (token : TokenRef)
    (st : list TokenRef) (v : string) (p : N) (la : bool) :
  h !! token = Some (OperatorToken v p la false) ->
  unknown_binary v ->
  (forall r l,
     evaluateExpressionTokens h st = Ok r ->
     evaluateExpressionTokens h (ev_stack r) = Ok l ->
     evaluateExpressionTokens h (token :: st) =
       Ok (mkEval 0 (ev_stack l)
             ((ev_cout r ++ ev_cout l) ++
              [error_msg (OperatorToken v p la false)])%list) /\
     length (ev_stack l) + 2 <= length st) /\
  (evaluateExpressionTokens h st = Undefined ->
     evaluateExpressionTokens h (token :: st) = Undefined) /\
  (forall r,
     evaluateExpressionTokens h st = Ok r ->
     evaluateExpressionTokens h (ev_stack r) = Undefined ->
     evaluateExpressionTokens h (token :: st) = Undefined).
Proof.
  intros Htk (H1 & H2 & H3 & H4).
  rewrite evaluateExpressionTokens_cons, (deref_Some _ _ _ Htk). simpl.
  split; [|split].
  - intros r l Hr Hl. rewrite Hr. simpl. rewrite Hl. simpl.
    rewrite !eqb_neq_false by assumption. split; [reflexivity|].
    apply evaluate_consumes in Hr, Hl. lia.
  - intros ->. reflexivity.
  - intros r -> Hl. simpl. rewrite Hl. reflexivity.
Qed.

Lemma unknown_binary_not_atomic_witness :
  store_caret !! 0 = Some (OperatorToken "^" 3 true false) /\
  unknown_binary "^" /\
  evaluateExpressionTokens store_caret [1; 2; 3] = Ok (mkEval 2 [2; 3] []) /\
  evaluateExpressionTokens store_caret [2; 3] = Ok (mkEval 7 [3] []) /\
  evaluateExpressionTokens store_caret [0; 1; 2; 3] =
    Ok (mkEval 0 [3] [error_msg (OperatorToken "^" 3 true false)]).
Proof.
  assert (unknown_binary "^") as Hv by (repeat split; discriminate).
  assert (evaluateExpressionTokens store_caret [1; 2; 3] =
            Ok (mkEval 2 [2; 3] [])) as Hr by reflexivity.
  assert (evaluateExpressionTokens store_caret [2; 3] = Ok (mkEval 7 [3] []))
    as Hl by reflexivity.
  split; [reflexivity|]. split; [exact Hv|]. split; [exact Hr|].
  split; [exact Hl|].
  exact (proj1 (proj1 (unknown_binary_not_atomic store_caret 0 [1; 2; 3]
                         "^" 3%N true eq_refl Hv)
                  (mkEval 2 [2; 3] []) (mkEval 7 [3] []) Hr Hl)).
Defined.

(** * Further properties of the pass and of the evaluator *)

Local Open Scope list_scope.

(** ** Roles *)

#[local] Arguments role_at : simpl never.

Lemma role_of_number (tk : Token) : role_of tk = RNumber <-> type tk = Number.
Proof.
  unfold role_of. destruct tk as [v|v p la u|v]; simpl;
    repeat match goal with |- context [if ?c then _ else _] => destruct c end;
    split; congruence.
Qed.

Lemma role_of_open (tk : Token) :
  role_of tk = ROpen <-> type tk <> Number /\ d_value tk = "(".
Proof.
  unfold role_of. destruct tk as [v|v p la u|v]; simpl;
    destruct (String.eqb_spec v "("); try destruct (v =? ")");
    (split; [intros H; try discriminate H; split; congruence
            |intros [H1 H2]; congruence]).
Qed.

Lemma role_of_operator (tk : Token) :
  role_of tk = ROperator <-> type tk = Operator /\ d_value tk <> "(".
Proof.
  unfold role_of. destruct tk as [v|v p la u|v]; simpl;
    destruct (String.eqb_spec v "("); try destruct (v =? ")");
    (split; [intros H; try discriminate H; split; congruence
            |intros [H1 H2]; congruence]).
Qed.

Lemma role_of_close (tk : Token) :
  role_of tk = RClose <-> tk = SymbolToken ")".
Proof.
  unfold role_of. destruct tk as [v|v p la u|v]; simpl;
    destruct (String.eqb_spec v "("); try destruct (String.eqb_spec v ")");
    split; try congruence; intros H; inversion H; congruence.
Qed.

Lemma set_unary_role (tk tk' : Token) :
  set_unary tk = Ok tk' -> role_of tk' = role_of tk.
Proof.
  intros H. apply set_unary_same in H as [Hv Ht].
  unfold role_of. rewrite Hv, Ht. reflexivity.
Qed.

Lemma tagUnary_role (h h' : Heap) (prev : option TokenRef)
    (token : TokenRef) (tk : Token) (r : TokenRef) :
  h !! token = Some tk -> tagUnary h prev token tk = Ok h' ->
  role_at h' r = role_at h r.
Proof.
  intros Htk Htag.
  apply tagUnary_cases in Htag as [->|(tk' & Hs & ->)]; [reflexivity|].
  unfold role_at. rewrite lookup_insert.
  destruct (decide (token = r)) as [<-|Hne]; [|reflexivity].
  rewrite Htk. simpl. f_equal. exact (set_unary_role _ _ Hs).
Qed.

Lemma role_at_Some (h : Heap) (r : TokenRef) (x : role) :
  role_at h r = Some x <-> exists tk, h !! r = Some tk /\ role_of tk = x.
Proof.
  unfold role_at. destruct (h !! r) as [tk|]; simpl; split.
  - intros [= <-]. eauto.
  - intros (tk' & [= <-] & <-). reflexivity.
  - discriminate.
  - intros (tk' & H & _). discriminate.
Qed.

(** The operator loop under roles: what it moves are operators. *)
Lemma popOperators_roles (h : Heap) (token : TokenRef) (tk : Token) :
  h !! token = Some tk -> type tk = Operator ->
  forall ops out,
    Forall (fun r => role_at h r = Some ROpen \/ role_at h r = Some ROperator)
           ops ->
    exists popped kept,
      ops = (popped ++ kept)%list /\
      popOperators h token ops out = Ok (kept, (rev popped ++ out)%list) /\
      Forall (fun r => role_at h r = Some ROperator) popped.
Proof.
  intros Htk Hop. induction ops as [|top rest IH]; intros out Hinv.
  - exists [], []. auto.
  - inversion Hinv as [|? ? Htop Hrest]; subst.
    simpl.
    destruct Htop as [Htop|Htop]; apply role_at_Some in Htop as (ttk & Hl & Hr).
    + apply role_of_open in Hr as [_ Hv].
      rewrite (deref_Some _ _ _ Hl). simpl. rewrite Hv. simpl.
      exists [], (top :: rest). auto.
    + pose proof Hr as Hr'. apply role_of_operator in Hr as [Hk Hv].
      rewrite (deref_Some _ _ _ Hl). simpl.
      rewrite (eqb_neq_false _ _ Hv).
      destruct ttk as [|v1 p1 la1 u1|]; try discriminate.
      destruct tk as [|v2 p2 la2 u2|]; try discriminate.
      simpl. rewrite (deref_Some _ _ _ Htk). simpl.
      destruct (p1 <? p2)%N; [exists [], (top :: rest); auto|].
      destruct ((p1 =? p2)%N && negb la2); [exists [], (top :: rest); auto|].
      destruct (IH (top :: out) Hrest) as (popped & kept & -> & Heq & Hall).
      exists (top :: popped), kept. split; [reflexivity|]. split.
      * rewrite Heq. simpl. rewrite <- app_assoc. reflexivity.
      * constructor; [|exact Hall]. apply role_at_Some. eauto.
Qed.

(** The parenthesis loop under roles. *)
Lemma popToParen_roles (h : Heap) :
  forall ops out,
    Forall (fun r => role_at h r = Some ROpen \/ role_at h r = Some ROperator)
           ops ->
    exists popped kept,
      ops = (popped ++ kept)%list /\
      popToParen h ops out = Ok (kept, (rev popped ++ out)%list) /\
      Forall (fun r => role_at h r = Some ROperator) popped /\
      (kept = [] \/
       exists lp kept' ltk,
         kept = lp :: kept' /\ role_at h lp = Some ROpen /\
         h !! lp = Some ltk /\ d_value ltk = "(").
Proof.
  induction ops as [|top rest IH]; intros out Hinv.
  - exists [], []. auto.
  - inversion Hinv as [|? ? Htop Hrest]; subst.
    simpl.
    destruct Htop as [Htop|Htop]; pose proof Htop as Hrole;
      apply role_at_Some in Htop as (ttk & Hl & Hr).
    + apply role_of_open in Hr as [_ Hv].
      rewrite (deref_Some _ _ _ Hl). simpl. rewrite Hv. simpl.
      exists [], (top :: rest). repeat split; auto.
      right. exists top, rest, ttk. auto.
    + apply role_of_operator in Hr as [Hk Hv].
      rewrite (deref_Some _ _ _ Hl). simpl.
      rewrite (eqb_neq_false _ _ Hv).
      destruct (IH (top :: out) Hrest) as (popped & kept & -> & Heq & Hall & Hk').
      exists (top :: popped), kept. repeat split; auto.
      rewrite Heq. simpl. rewrite <- app_assoc. reflexivity.
Qed.

(** The loop body, branch by branch. *)
Lemma loopBody_by_role (s : SYState) (token : TokenRef) (tk : Token) :
  heap s !! token = Some tk ->
  loopBody s token =
    match role_of tk with
    | RNumber =>
        Continue (mkSY (heap s) (token :: outputStack s) (operatorStack s)
                       (Some token) (cout s))
    | ROpen =>
        Continue (mkSY (heap s) (outputStack s) (token :: operatorStack s)
                       (Some token) (cout s))
    | ROperator =>
        match tagUnary (heap s) (previousToken s) token tk with
        | Ok h' =>
            match popOperators h' token (operatorStack s) (outputStack s) with
            | Ok (ops, out) =>
                Continue (mkSY h' out (token :: ops) (Some token) (cout s))
            | _ => Fault
            end
        | _ => Fault
        end
    | RClose =>
        match popToParen (heap s) (operatorStack s) (outputStack s) with
        | Ok (ops, out) =>
            match ops with
            | [] =>
                Break (mkSY (heap s) out ops (previousToken s)
                            (cout s ++ [mismatched_msg])%list)
            | top :: ops' =>
                match deref (heap s) top with
                | Ok ttk =>
                    if negb (d_value ttk =? "(") then
                      Break (mkSY (heap s) out ops (previousToken s)
                                  (cout s ++ [mismatched_msg])%list)
                    else Continue (mkSY (heap s) out ops' (Some token) (cout s))
                | _ => Fault
                end
            end
        | _ => Fault
        end
    | RSkip =>
        Continue (mkSY (heap s) (outputStack s) (operatorStack s)
                       (Some token) (cout s))
    end.
Proof.
  intros Htk. unfold loopBody, role_of. rewrite (deref_Some _ _ _ Htk).
  destruct (TokenType_eqb (type tk) Number); [reflexivity|].
  destruct (d_value tk =? "("); [reflexivity|].
  destruct (TokenType_eqb (type tk) Operator); [reflexivity|].
  destruct (d_value tk =? ")"); reflexivity.
Qed.

Lemma loopBody_null (s : SYState) (token : TokenRef) :
  heap s !! token = None -> loopBody s token = Fault.
Proof. intros H. unfold loopBody, deref. rewrite H. reflexivity. Qed.

Lemma roles_inv_wf (s : SYState) : roles_inv s -> wf_state s.
Proof.
  intros [Hops Hprev]. split; [|exact Hprev].
  eapply Forall_impl; [exact Hops|]. intros r [H|H];
    apply role_at_Some in H as (tk & Hl & Hr); exists tk; split; auto.
  - apply role_of_open in Hr as [_ Hv]. auto.
  - apply role_of_operator in Hr as [Hk _]. auto.
Qed.

Lemma initialState_roles_inv (h : Heap) : roles_inv (initialState h).
Proof. split; simpl; [constructor|discriminate]. Qed.

(** One iteration from a state of the pass: it faults on a null pointer
    only, and otherwise does what its role prescribes. *)
Lemma loopBody_roles (s : SYState) (token : TokenRef) :
  roles_inv s ->
  match loopBody s token with
  | Continue s' => step_facts s token true s'
  | Break s' => step_facts s token false s'
  | Fault => heap s !! token = None
  end.
Proof.
  intros Hinv. pose proof Hinv as [Hops Hprev].
  destruct (heap s !! token) as [tk|] eqn:Htk;
    [|rewrite (loopBody_null _ _ Htk); reflexivity].
  assert (role_at (heap s) token = Some (role_of tk)) as Hrole
    by (unfold role_at; rewrite Htk; reflexivity).
  rewrite (loopBody_by_role s token tk Htk).
  destruct (role_of tk) eqn:Hr.
  - constructor; simpl; eauto; try reflexivity.
    + split; simpl; [exact Hops|]. intros q [= <-]. eauto.
    + constructor. exact Hrole.
  - constructor; simpl; eauto; try reflexivity.
    + split; simpl; [|intros q [= <-]; eauto].
      constructor; [left; exact Hrole|exact Hops].
    + constructor. exact Hrole.
  - apply role_of_operator in Hr as [Hop Hv].
    destruct (tagUnary_defined (heap s) (previousToken s) token tk Hop Hprev)
      as [h' Htag].
    rewrite Htag.
    pose proof (fun r => tagUnary_role _ _ _ _ _ r Htk Htag) as Hsame.
    destruct (tagUnary_token _ _ _ _ _ Htk Hop Htag) as (tk' & Htk' & Hop' & _).
    assert (Forall (fun r => role_at h' r = Some ROpen \/
                             role_at h' r = Some ROperator) (operatorStack s))
      as Hops'.
    { eapply Forall_impl; [exact Hops|]. intros r. rewrite Hsame. auto. }
    destruct (popOperators_roles h' token tk' Htk' Hop' (operatorStack s)
                (outputStack s) Hops') as (popped & kept & Hsplit & -> & Hall).
    constructor; simpl; eauto; try reflexivity.
    + split; simpl; [|intros q [= <-]; eauto].
      rewrite Hsplit in Hops'. apply Forall_app in Hops' as [_ Hkept].
      constructor; [|exact Hkept]. right. rewrite Hsame. exact Hrole.
    + apply spec_operator; [exact Hrole|exact Hsplit|].
      eapply Forall_impl; [exact Hall|].
      intros r Hr. rewrite <- (Hsame r). exact Hr.
  - destruct (popToParen_roles (heap s) (operatorStack s) (outputStack s) Hops)
      as (popped & kept & Hsplit & -> & Hall & Hkept).
    destruct Hkept as [->|(lp & kept' & ltk & -> & Hlp & Hl & Hv)].
    + rewrite app_nil_r in Hsplit. subst popped.
      constructor; simpl; eauto; try reflexivity; try discriminate.
      * split; simpl; auto.
      * apply spec_mismatch; [exact Hrole|exact Hall].
    + rewrite (deref_Some _ _ _ Hl), Hv. simpl.
      constructor; simpl; eauto; try reflexivity.
      * split; simpl; [|intros q [= <-]; eauto].
        rewrite Hsplit in Hops. apply Forall_app in Hops as [_ Hk].
        inversion Hk; assumption.
      * eapply spec_close; eauto.
  - constructor; simpl; eauto; try reflexivity.
    + split; simpl; [exact Hops|]. intros q [= <-]. eauto.
    + apply spec_skip. exact Hrole.
Qed.

Lemma body_spec_ext (ρ ρ' : TokenRef -> option role) token ops out go ops' out' :
  (forall r, ρ r = ρ' r) ->
  body_spec ρ token ops out go ops' out' ->
  body_spec ρ' token ops out go ops' out'.
Proof.
  intros Hext H.
  assert (forall x l, Forall (fun r => ρ r = Some x) l ->
                      Forall (fun r => ρ' r = Some x) l) as Hall.
  { intros x l Hl. eapply Forall_impl; [exact Hl|].
    intros r Hr. rewrite <- Hext. exact Hr. }
  destruct H; rewrite ?Hext in *.
  - apply spec_number; assumption.
  - apply spec_open; assumption.
  - eapply spec_operator; eauto.
  - eapply spec_close; eauto.
  - apply spec_mismatch; auto.
  - apply spec_skip; assumption.
Qed.

Lemma run_spec_ext (ρ ρ' : TokenRef -> option role) ops out consumed go ops' out' :
  (forall r, ρ r = ρ' r) ->
  run_spec ρ ops out consumed go ops' out' ->
  run_spec ρ' ops out consumed go ops' out'.
Proof.
  intros Hext H. induction H.
  - constructor.
  - eapply run_step; [eapply body_spec_ext; eassumption|assumption].
  - apply run_left. eapply body_spec_ext; eassumption.
Qed.

(** The main loop from a state of the pass: the queue splits into the
    tokens consumed and the tokens left, and the stacks have moved as the
    roles of the tokens consumed prescribe. *)
Lemma mainLoop_spec :
  forall (q : list TokenRef) (s s' : SYState) (q' : list TokenRef),
    roles_inv s ->
    mainLoop s q = Ok (s', q') ->
    exists consumed go,
      q = (consumed ++ q')%list /\
      run_spec (role_at (heap s)) (operatorStack s) (outputStack s)
               consumed go (operatorStack s') (outputStack s') /\
      roles_inv s' /\
      (forall r, role_at (heap s') r = role_at (heap s) r) /\
      Forall (fun r => is_Some (heap s !! r)) consumed /\
      cout s' = (if go then cout s else (cout s ++ [mismatched_msg])%list) /\
      (go = true -> q' = []).
Proof.
  induction q as [|token rest IH]; intros s s' q' Hinv H.
  - injection H as <- <-. exists [], true.
    split; [reflexivity|]. split; [constructor|]. split; [exact Hinv|].
    split; [reflexivity|]. split; [constructor|]. split; reflexivity.
  - simpl in H. pose proof (loopBody_roles s token Hinv) as Hstep.
    destruct (loopBody s token) as [s1|s1|]; [| |discriminate].
    + destruct Hstep as [Hvalid Hinv1 Hroles Hspec Hcout _].
      destruct (IH s1 s' q' Hinv1 H)
        as (consumed & go & -> & Hrun & Hinv' & Hroles' & Hval & Hcout' & Hq').
      exists (token :: consumed), go. split; [reflexivity|].
      split; [|split; [exact Hinv'|split; [|split; [|split]]]].
      * eapply run_step; [exact Hspec|].
        eapply run_spec_ext; [exact Hroles|exact Hrun].
      * intros r. rewrite Hroles', Hroles. reflexivity.
      * constructor; [exact Hvalid|].
        eapply Forall_impl; [exact Hval|]. intros r Hr.
        pose proof (Hroles r) as E. unfold role_at in E.
        destruct Hr as [x Hx]. rewrite Hx in E.
        destruct (heap s !! r); [eauto|discriminate].
      * rewrite Hcout', Hcout. reflexivity.
      * exact Hq'.
    + injection H as <- <-.
      destruct Hstep as [Hvalid Hinv1 Hroles Hspec Hcout _].
      exists [token], false.
      split; [reflexivity|]. split; [apply run_left; exact Hspec|].
      split; [exact Hinv1|]. split; [exact Hroles|].
      split; [constructor; [exact Hvalid|constructor]|].
      split; [exact Hcout|discriminate].
Qed.

(** ** What the roles alone decide *)

Section Roles.
Variable ρ : TokenRef -> option role.

Lemma rev_is_reverse {A} (l : list A) : rev l = reverse l.
Proof. unfold reverse. rewrite rev_alt. reflexivity. Qed.

Lemma filter_rev {A} (P : A -> Prop) `{forall x, Decision (P x)} (l : list A) :
  filter P (rev l) = rev (filter P l).
Proof. rewrite !rev_is_reverse. apply filter_reverse. Qed.

Lemma filter_other (x y : role) (l : list TokenRef) :
  x <> y -> Forall (fun r => ρ r = Some y) l ->
  filter (fun r => ρ r = Some x) l = [].
Proof.
  intros Hne Hl. induction Hl as [|r l Hr _ IH]; [reflexivity|].
  rewrite filter_cons_False; [exact IH|]. congruence.
Qed.

Lemma filter_one_other (x y : role) (r : TokenRef) :
  x <> y -> ρ r = Some y -> filter (fun r => ρ r = Some x) [r] = [].
Proof. intros Hne Hr. apply (filter_other x y); auto. Qed.



(** An iteration puts a number on the output above the numbers already
    there, and moves no number. *)
Lemma body_spec_numbers token ops out go ops1 out1 :
  body_spec ρ token ops out go ops1 out1 ->
  filter (fun r => ρ r = Some RNumber) (rev out1) =
  filter (fun r => ρ r = Some RNumber) (rev out) ++
  filter (fun r => ρ r = Some RNumber) [token].
Proof.
  intros H.
  assert (forall y l, RNumber <> y ->
            Forall (fun r => ρ r = Some y) l ->
            filter (fun r => ρ r = Some RNumber) (rev (rev l ++ out)) =
            filter (fun r => ρ r = Some RNumber) (rev out)) as Hmoved.
  { intros y l Hy Hl.
    rewrite rev_app_distr, rev_involutive, filter_app.
    rewrite (filter_other RNumber y l Hy Hl). apply app_nil_r. }
  destruct H as [Ht|Ht|popped kept Ht -> Hp|popped kept lp Ht -> Hp Hlp
                |Ht Hp|Ht].
  - simpl. rewrite filter_app. reflexivity.
  - rewrite (filter_one_other RNumber ROpen token); [|discriminate|exact Ht].
    rewrite app_nil_r. reflexivity.
  - rewrite (filter_one_other RNumber ROperator token);
      [|discriminate|exact Ht].
    rewrite app_nil_r. apply (Hmoved ROperator); [discriminate|exact Hp].
  - rewrite (filter_one_other RNumber RClose token); [|discriminate|exact Ht].
    rewrite app_nil_r. apply (Hmoved ROperator); [discriminate|exact Hp].
  - rewrite (filter_one_other RNumber RClose token); [|discriminate|exact Ht].
    rewrite app_nil_r. apply (Hmoved ROperator); [discriminate|exact Hp].
  - rewrite (filter_one_other RNumber RSkip token); [|discriminate|exact Ht].
    rewrite app_nil_r. reflexivity.
Qed.

Lemma run_spec_numbers ops out consumed go ops' out' :
  run_spec ρ ops out consumed go ops' out' ->
  filter (fun r => ρ r = Some RNumber) (rev out') =
  filter (fun r => ρ r = Some RNumber) (rev out) ++
  filter (fun r => ρ r = Some RNumber) consumed.
Proof.
  intros H. induction H as [|token consumed ops out ops1 out1 go ops2 out2 Hb _ IH
                           |token ops out ops1 out1 Hb].
  - rewrite app_nil_r. reflexivity.
  - rewrite IH, (body_spec_numbers _ _ _ _ _ _ Hb), <- app_assoc.
    rewrite <- filter_app. reflexivity.
  - apply (body_spec_numbers _ _ _ _ _ _ Hb).
Qed.
End Roles.

(** ** Parentheses *)

Lemma count_role_app (h : Heap) (x : role) (l1 l2 : list TokenRef) :
  count_role h x (l1 ++ l2) = count_role h x l1 + count_role h x l2.
Proof. unfold count_role, of_role. rewrite filter_app, length_app. reflexivity. Qed.

Lemma count_role_rev (h : Heap) (x : role) (l : list TokenRef) :
  count_role h x (rev l) = count_role h x l.
Proof. unfold count_role, of_role. rewrite filter_rev, length_rev. reflexivity. Qed.

Lemma count_role_other (h : Heap) (x y : role) (l : list TokenRef) :
  x <> y -> Forall (fun r => role_at h r = Some y) l -> count_role h x l = 0.
Proof.
  intros Hne Hl. unfold count_role, of_role.
  rewrite (filter_other (role_at h) x y l Hne Hl). reflexivity.
Qed.

Lemma count_role_cons (h : Heap) (x y : role) (r : TokenRef) (l : list TokenRef) :
  role_at h r = Some y ->
  count_role h x (r :: l) =
    (if decide (x = y) then 1 else 0) + count_role h x l.
Proof.
  intros Hr. unfold count_role, of_role. rewrite filter_cons.
  destruct (decide (role_at h r = Some x)) as [E|E];
    destruct (decide (x = y)) as [->|Hne]; simpl; congruence.
Qed.

(** An iteration and the depth of parentheses: the open parentheses on the
    operator stack count the depth, and the loop is left exactly when a
    closing parenthesis comes at depth 0.  The output stack receives no
    open parenthesis. *)
Lemma body_spec_depth (h : Heap) token ops out go ops1 out1 rest :
  body_spec (role_at h) token ops out go ops1 out1 ->
  paren_depth h (count_role h ROpen ops) (token :: rest) =
    (if go then paren_depth h (count_role h ROpen ops1) rest else None) /\
  count_role h ROpen out1 = count_role h ROpen out.
Proof.
  intros H.
  destruct H as [Ht|Ht|popped kept Ht -> Hp|popped kept lp Ht -> Hp Hlp
                |Ht Hp|Ht]; simpl; rewrite Ht.
  - split; [reflexivity|]. rewrite (count_role_cons h ROpen RNumber _ _ Ht).
    reflexivity.
  - split; [|reflexivity]. rewrite (count_role_cons h ROpen ROpen _ _ Ht).
    reflexivity.
  - rewrite !count_role_app, count_role_rev.
    rewrite (count_role_cons h ROpen ROperator _ _ Ht).
    rewrite (count_role_other h ROpen ROperator popped); [|discriminate|exact Hp].
    split; reflexivity.
  - rewrite !count_role_app, count_role_rev.
    rewrite (count_role_cons h ROpen ROpen _ _ Hlp).
    rewrite (count_role_other h ROpen ROperator popped); [|discriminate|exact Hp].
    split; reflexivity.
  - rewrite !count_role_app, count_role_rev.
    rewrite (count_role_other h ROpen ROperator ops); [|discriminate|exact Hp].
    split; reflexivity.
  - split; reflexivity.
Qed.

Lemma paren_depth_None (h : Heap) (pre rest : list TokenRef) :
  forall d, paren_depth h d pre = None -> paren_depth h d (pre ++ rest) = None.
Proof.
  induction pre as [|r pre IH]; intros d; [discriminate|].
  simpl. destruct (role_at h r) as [[]|]; try apply IH.
  destruct d; [reflexivity|apply IH].
Qed.

Lemma run_spec_depth (h : Heap) ops out consumed go ops' out' :
  run_spec (role_at h) ops out consumed go ops' out' ->
  paren_depth h (count_role h ROpen ops) consumed =
    (if go then Some (count_role h ROpen ops') else None) /\
  count_role h ROpen out' = count_role h ROpen out.
Proof.
  intros H. induction H as [|token consumed ops out ops1 out1 go ops2 out2 Hb _ IH
                           |token ops out ops1 out1 Hb].
  - split; reflexivity.
  - destruct (body_spec_depth h _ _ _ _ _ _ consumed Hb) as [E1 E2].
    destruct IH as [IH1 IH2]. rewrite E1, IH1, IH2, E2. split; reflexivity.
  - destruct (body_spec_depth h _ _ _ _ _ _ [] Hb) as [E1 E2].
    rewrite E1, E2. split; reflexivity.
Qed.

(** ** The pass as a whole *)

(** What a call that returns has done, in terms of roles. *)
Lemma pass_spec (h : Heap) (q : list TokenRef) (res : SYResult) :
  shuntingYardAlgorithm h q = Ok res ->
  exists consumed go ops out,
    q = consumed ++ res_queue res /\
    run_spec (role_at h) [] [] consumed go ops out /\
    res_stack res = rev ops ++ out /\
    Forall (fun r => role_at h r = Some ROpen \/ role_at h r = Some ROperator)
           ops /\
    (forall r, role_at (res_heap res) r = role_at h r) /\
    Forall (fun r => is_Some (h !! r)) consumed /\
    res_cout res = (if go then [] else [mismatched_msg]) /\
    (go = true -> res_queue res = []).
Proof.
  unfold shuntingYardAlgorithm, passFrom. intros H.
  destruct (mainLoop (initialState h) q) as [[s' q']| |] eqn:E;
    try discriminate.
  simpl in H. injection H as <-.
  destruct (mainLoop_spec q _ s' q' (initialState_roles_inv h) E)
    as (consumed & go & Hq & Hrun & [Hops _] & Hroles & Hval & Hcout & Hgo).
  exists consumed, go, (operatorStack s'), (outputStack s'). simpl in *.
  split; [exact Hq|]. split; [exact Hrun|]. split; [apply drain_rev|].
  split; [|split; [exact Hroles|split; [exact Hval|split; [|exact Hgo]]]].
  - eapply Forall_impl; [exact Hops|]. intros r Hr.
    rewrite <- !Hroles. exact Hr.
  - rewrite Hcout. destruct go; reflexivity.
Qed.

Lemma run_spec_left_on_close (ρ : TokenRef -> option role)
    ops out consumed ops' out' :
  run_spec ρ ops out consumed false ops' out' ->
  exists pre rp, consumed = pre ++ [rp] /\ ρ rp = Some RClose /\ ops' = [].
Proof.
  intros H. remember false as go eqn:Hgo.
  induction H as [|token consumed ops out ops1 out1 go ops2 out2 Hb _ IH
                 |token ops out ops1 out1 Hb].
  - discriminate.
  - destruct (IH Hgo) as (pre & rp & -> & Hrp & Hops).
    exists (token :: pre), rp. auto.
  - exists [], token. inversion Hb; subst. auto.
Qed.

Lemma run_spec_output_roles (ρ : TokenRef -> option role)
    ops out consumed go ops' out' :
  run_spec ρ ops out consumed go ops' out' ->
  Forall (fun r => ρ r = Some RNumber \/ ρ r = Some ROperator) out ->
  Forall (fun r => ρ r = Some RNumber \/ ρ r = Some ROperator) out'.
Proof.
  assert (forall l, Forall (fun r => ρ r = Some ROperator) l ->
            Forall (fun r => ρ r = Some RNumber \/ ρ r = Some ROperator) (rev l))
    as Hrev.
  { intros l Hl. rewrite rev_is_reverse. apply Forall_reverse.
    eapply Forall_impl; [exact Hl|]. auto. }
  assert (forall token ops out go ops1 out1,
            body_spec ρ token ops out go ops1 out1 ->
            Forall (fun r => ρ r = Some RNumber \/ ρ r = Some ROperator) out ->
            Forall (fun r => ρ r = Some RNumber \/ ρ r = Some ROperator) out1)
    as Hbody.
  { intros token ops0 out0 go0 ops1 out1 Hb Hout.
    destruct Hb; auto; apply Forall_app; auto. }
  intros H. induction H; eauto.
Qed.

(** X1: The pass reads a prefix of its queue: all of it when it prints
    nothing; otherwise it has printed the diagnostic once and the last token
    read is a Symbol [")"]. *)
Theorem pass_reads_prefix (h : Heap) (q : list TokenRef) (res : SYResult) :
  shuntingYardAlgorithm h q = Ok res ->
  exists consumed,
    q = consumed ++ res_queue res /\
    Forall (fun r => is_Some (h !! r)) consumed /\
    ((res_cout res = [] /\ res_queue res = []) \/
     (res_cout res = [mismatched_msg] /\
      exists pre rp, consumed = pre ++ [rp] /\
                     h !! rp = Some (SymbolToken ")"))).
Proof.
  intros H.
  destruct (pass_spec h q res H)
    as (consumed & go & ops & out & Hq & Hrun & _ & _ & _ & Hval & Hcout & Hgo).
  exists consumed. split; [exact Hq|]. split; [exact Hval|].
  destruct go.
  - left. auto.
  - right. split; [exact Hcout|].
    destruct (run_spec_left_on_close _ _ _ _ _ _ Hrun) as (pre & rp & -> & Hrp & _).
    exists pre, rp. split; [reflexivity|].
    apply role_at_Some in Hrp as (tk & Hl & Hr).
    apply role_of_close in Hr as ->. exact Hl.
Qed.

(** X2: The diagnostic is printed exactly when a closing parenthesis comes at
    depth 0, counting as opening every token with text ["("] that is no
    number and as closing every Symbol [")"]. *)
Theorem pass_mismatch_iff (h : Heap) (q : list TokenRef) (res : SYResult) :
  shuntingYardAlgorithm h q = Ok res ->
  (res_cout res = [] <-> is_Some (paren_depth h 0 q)) /\
  (res_cout res = [mismatched_msg] <-> paren_depth h 0 q = None).
Proof.
  intros H.
  destruct (pass_spec h q res H)
    as (consumed & go & ops & out & Hq & Hrun & _ & _ & _ & _ & Hcout & Hgo).
  destruct (run_spec_depth h _ _ _ _ _ _ Hrun) as [Hd _].
  change (count_role h ROpen []) with 0 in Hd.
  destruct go.
  - rewrite (Hgo eq_refl), app_nil_r in Hq. subst consumed.
    rewrite Hcout, Hd. split; split; try discriminate; eauto.
  - rewrite Hq, (paren_depth_None h consumed _ 0 Hd), Hcout.
    split; split; try discriminate; auto.
    intros [x Hx]. discriminate.
Qed.

Lemma count_role_zero (h : Heap) (x : role) (l : list TokenRef) :
  count_role h x l = 0 -> Forall (fun r => role_at h r <> Some x) l.
Proof.
  unfold count_role, of_role. induction l as [|r l IH]; [constructor|].
  rewrite filter_cons. destruct (decide (role_at h r = Some x)); simpl;
    [discriminate|]. intros H. constructor; auto.
Qed.

(** X3: The returned stack holds numbers, operators and unmatched opening
    parentheses only: no closing parenthesis and no other symbol reaches
    it.  When no closing parenthesis is unmatched, it holds as many opening
    parentheses as are left open at the end of the queue; for a balanced
    queue it holds numbers and operators only. *)
Theorem pass_output_roles (h : Heap) (q : list TokenRef) (res : SYResult) :
  shuntingYardAlgorithm h q = Ok res ->
  Forall (fun r => role_at h r = Some RNumber \/
                   role_at h r = Some ROperator \/
                   role_at h r = Some ROpen) (res_stack res) /\
  (forall d, paren_depth h 0 q = Some d ->
             count_role h ROpen (res_stack res) = d) /\
  (paren_depth h 0 q = Some 0 ->
   Forall (fun r => role_at h r = Some RNumber \/
                    role_at h r = Some ROperator) (res_stack res)).
Proof.
  intros H.
  destruct (pass_spec h q res H)
    as (consumed & go & ops & out & Hq & Hrun & Hst & Hops & _ & _ & _ & Hgo).
  pose proof (run_spec_output_roles _ _ _ _ _ _ _ Hrun (List.Forall_nil _)) as Hout.
  destruct (run_spec_depth h _ _ _ _ _ _ Hrun) as [Hd Hc].
  change (count_role h ROpen []) with 0 in Hd, Hc.
  assert (Forall (fun r => role_at h r = Some RNumber \/
                           role_at h r = Some ROperator \/
                           role_at h r = Some ROpen) (res_stack res)) as Hall.
  { rewrite Hst. apply Forall_app. split.
    - rewrite rev_is_reverse. apply Forall_reverse.
      eapply Forall_impl; [exact Hops|]. intros r [Hr|Hr]; auto.
    - eapply Forall_impl; [exact Hout|]. intros r [Hr|Hr]; auto. }
  assert (forall d, paren_depth h 0 q = Some d ->
                    count_role h ROpen (res_stack res) = d) as Hcount.
  { intros d Hq0. destruct go.
    - rewrite (Hgo eq_refl), app_nil_r in Hq. subst consumed.
      rewrite Hd in Hq0. injection Hq0 as <-.
      rewrite Hst, count_role_app, count_role_rev, Hc. lia.
    - rewrite Hq, (paren_depth_None h consumed _ 0 Hd) in Hq0. discriminate. }
  split; [exact Hall|]. split; [exact Hcount|].
  intros Hq0. apply Hcount in Hq0. apply count_role_zero in Hq0.
  rewrite Forall_forall in *. intros r Hr.
  destruct (Hall r Hr) as [E|[E|E]]; auto.
  exfalso. exact (Hq0 r Hr E).
Qed.

(** X4: The numbers leave the pass in the order in which they were read: from
    the bottom of the returned stack to its top they are the numbers of the
    tokens consumed, in queue order. *)
Theorem pass_operand_order (h : Heap) (q : list TokenRef) (res : SYResult) :
  shuntingYardAlgorithm h q = Ok res ->
  exists consumed,
    q = consumed ++ res_queue res /\
    of_role h RNumber (rev (res_stack res)) = of_role h RNumber consumed.
Proof.
  intros H.
  destruct (pass_spec h q res H)
    as (consumed & go & ops & out & Hq & Hrun & Hst & Hops & _).
  exists consumed. split; [exact Hq|].
  pose proof (run_spec_numbers _ _ _ _ _ _ _ Hrun) as Hn. simpl in Hn.
  unfold of_role. rewrite Hst, rev_app_distr, rev_involutive, filter_app, Hn.
  assert (filter (fun r => role_at h r = Some RNumber) ops = []) as ->.
  { clear -Hops. induction Hops as [|r l Hr _ IH]; [reflexivity|].
    rewrite filter_cons_False; [exact IH|]. destruct Hr; congruence. }
  apply app_nil_r.
Qed.


(** ** What the pass writes *)

Lemma retagged_refl (a : Token) : retagged a a.
Proof. left. reflexivity. Qed.

Lemma retagged_trans (a b c : Token) :
  retagged a b -> retagged b c -> retagged a c.
Proof.
  intros [->|(v & p & la & u & -> & Hv & ->)] Hbc; [exact Hbc|].
  destruct Hbc as [->|(v' & p' & la' & u' & [= <- <- <- <-] & _ & ->)];
    right; exists v, p, la, u; auto.
Qed.

Lemma retagged_same (a b : Token) :
  retagged a b ->
  type b = type a /\ d_value b = d_value a /\
  get_precedence b = get_precedence a.
Proof.
  intros [->|(v & p & la & u & -> & _ & ->)]; repeat split.
Qed.

Lemma tagUnary_retags (h h' : Heap) (prev : option TokenRef)
    (token : TokenRef) (tk : Token) :
  h !! token = Some tk -> tagUnary h prev token tk = Ok h' ->
  forall r, option_Forall2 retagged (h !! r) (h' !! r) /\
            (r <> token -> h' !! r = h !! r).
Proof.
  intros Htk Htag r.
  assert (option_Forall2 retagged (h !! r) (h !! r)) as Hrefl
    by (destruct (h !! r); constructor; apply retagged_refl).
  unfold tagUnary in Htag.
  destruct ((d_value tk =? "+") || (d_value tk =? "-")) eqn:Ev;
    [|injection Htag as <-; auto].
  apply bind_Ok in Htag as ([|] & _ & Htag); [|injection Htag as <-; auto].
  apply bind_Ok in Htag as (tk' & Hs & [= <-]).
  destruct tk as [|v p la u|]; try discriminate. injection Hs as <-.
  simpl in Ev. apply orb_true_iff in Ev.
  rewrite !String.eqb_eq in Ev.
  split.
  - rewrite lookup_insert. destruct (decide (token = r)) as [<-|Hne];
      [|exact Hrefl].
    rewrite Htk. constructor. right. exists v, p, la, u. auto.
  - intros Hne. apply lookup_insert_ne. congruence.
Qed.

Lemma loopBody_store (s s' : SYState) (token : TokenRef) :
  loopBody s token = Continue s' \/ loopBody s token = Break s' ->
  forall r, option_Forall2 retagged (heap s !! r) (heap s' !! r) /\
            (r <> token -> heap s' !! r = heap s !! r).
Proof.
  intros H r.
  assert (option_Forall2 retagged (heap s !! r) (heap s !! r)) as Hrefl
    by (destruct (heap s !! r); constructor; apply retagged_refl).
  destruct (heap s !! token) as [tk|] eqn:Htk;
    [|rewrite (loopBody_null _ _ Htk) in H; destruct H; discriminate].
  rewrite (loopBody_by_role s token tk Htk) in H.
  destruct (role_of tk).
  - destruct H as [[= <-]|[=]]. simpl. auto.
  - destruct H as [[= <-]|[=]]. simpl. auto.
  - destruct (tagUnary (heap s) (previousToken s) token tk) as [h'| |] eqn:Htag;
      try (destruct H; discriminate).
    destruct (popOperators h' token (operatorStack s) (outputStack s))
      as [[ops out]| |]; try (destruct H; discriminate).
    destruct H as [[= <-]|[=]]. simpl.
    exact (tagUnary_retags _ _ _ _ _ Htk Htag r).
  - destruct (popToParen (heap s) (operatorStack s) (outputStack s))
      as [[ops out]| |]; try (destruct H; discriminate).
    destruct ops as [|top ops'].
    + destruct H as [[=]|[= <-]]. simpl. auto.
    + destruct (deref (heap s) top) as [ttk| |];
        try (destruct H; discriminate).
      destruct (negb (d_value ttk =? "("));
        destruct H as [H|H]; try discriminate; injection H as <-; simpl; auto.
  - destruct H as [[= <-]|[=]]. simpl. auto.
Qed.

Lemma mainLoop_store :
  forall (q : list TokenRef) (s s' : SYState) (q' : list TokenRef),
    mainLoop s q = Ok (s', q') ->
    forall r, option_Forall2 retagged (heap s !! r) (heap s' !! r) /\
              (r ∉ q -> heap s' !! r = heap s !! r).
Proof.
  induction q as [|token rest IH]; intros s s' q' H r.
  - injection H as <- <-. split; [|reflexivity].
    destruct (heap s !! r); constructor. apply retagged_refl.
  - simpl in H. destruct (loopBody s token) as [s1|s1|] eqn:E; [| |discriminate].
    + destruct (loopBody_store s s1 token (or_introl E) r) as [H1 H2].
      destruct (IH s1 s' q' H r) as [H3 H4]. split.
      * destruct H1 as [a b Hab|]; inversion H3 as [b' c Hbc|]; subst;
          constructor. exact (retagged_trans _ _ _ Hab Hbc).
      * intros Hr. rewrite not_elem_of_cons in Hr. destruct Hr as [Hne Hr].
        rewrite (H4 Hr). apply H2. exact Hne.
    + injection H as <- <-.
      destruct (loopBody_store s s1 token (or_intror E) r) as [H1 H2].
      split; [exact H1|]. intros Hr. rewrite not_elem_of_cons in Hr.
      apply H2. tauto.
Qed.

(** X6: The pass writes nothing but the two fields of lines 167-168, and only
    in operator objects of the queue whose text is [+] or [-]: an object
    outside the queue is untouched, no object appears or disappears, and
    kind, text and precedence of every object stay what they were. *)
Theorem pass_store (h : Heap) (q : list TokenRef) (res : SYResult) :
  shuntingYardAlgorithm h q = Ok res ->
  (forall r, option_Forall2 retagged (h !! r) (res_heap res !! r)) /\
  (forall r, r ∉ q -> res_heap res !! r = h !! r) /\
  (forall r a b,
     h !! r = Some a -> res_heap res !! r = Some b ->
     type b = type a /\ d_value b = d_value a /\
     get_precedence b = get_precedence a).
Proof.
  unfold shuntingYardAlgorithm, passFrom. intros H.
  destruct (mainLoop (initialState h) q) as [[s' q']| |] eqn:E;
    try discriminate.
  simpl in H. injection H as <-. simpl.
  pose proof (mainLoop_store q _ s' q' E) as Hst. simpl in Hst.
  split; [intros r; apply Hst|]. split; [intros r; apply Hst|].
  intros r a b Ha Hb. destruct (Hst r) as [H1 _].
  rewrite Ha, Hb in H1. inversion H1; subst. apply retagged_same. assumption.
Qed.

(** ** The evaluator and expression trees *)

(** The evaluator only pops. *)
Lemma evaluate_suffix (fuel : nat) (h : Heap) :
  forall (st : list TokenRef) (r : EvalResult),
    evaluate fuel h st = Ok r ->
    exists used, used <> [] /\ st = used ++ ev_stack r.
Proof.
  induction fuel as [|fuel IH]; intros st r; [discriminate|].
  destruct st as [|token st]; [discriminate|].
  rewrite evaluate_unfold. intros H.
  apply bind_Ok in H as (tk & _ & H).
  assert (forall r1, evaluate fuel h st = Ok r1 ->
            exists used, used <> [] /\ token :: st = used ++ ev_stack r1) as H1.
  { intros r1 Hr1. apply IH in Hr1 as (used & _ & ->).
    exists (token :: used). split; [discriminate|reflexivity]. }
  assert (forall r1 r2, evaluate fuel h st = Ok r1 ->
            evaluate fuel h (ev_stack r1) = Ok r2 ->
            exists used, used <> [] /\ token :: st = used ++ ev_stack r2) as H2.
  { intros r1 r2 Hr1 Hr2. apply IH in Hr1 as (u1 & _ & ->).
    apply IH in Hr2 as (u2 & _ & ->).
    exists (token :: u1 ++ u2). split; [discriminate|].
    simpl. rewrite <- app_assoc. reflexivity. }
  split_Ok H; try (injection H as <-; simpl); eauto.
  all: exists [token]; split; [discriminate|reflexivity].
Qed.

(** X7: What the evaluator leaves is a proper end of the stack it was given:
    it pops at least one token and never pushes. *)
Theorem evaluator_leaves_suffix (h : Heap) (st : list TokenRef) (r : EvalResult) :
  evaluateExpressionTokens h st = Ok r ->
  exists used, used <> [] /\ st = used ++ ev_stack r.
Proof. apply evaluate_suffix. Qed.

Lemma deref_Ok (h : Heap) (r : TokenRef) (t : Token) :
  deref h r = Ok t -> h !! r = Some t.
Proof. unfold deref. destruct (h !! r); intros H; congruence. Qed.

Lemma fits_checked (z v : Z) : fits z = Some v -> checked z = Ok v.
Proof.
  unfold fits, checked. destruct (in_int64 z); [|discriminate].
  intros [= <-]. reflexivity.
Qed.

Lemma checked_fits (z v : Z) : checked z = Ok v -> fits z = Some v.
Proof.
  unfold fits, checked. destruct (in_int64 z); [|discriminate].
  intros [= <-]. reflexivity.
Qed.

Lemma evaluate_postfix (h : Heap) (e : Expr) :
  forall (v : Z) (rest : list TokenRef),
    value h e = Some v ->
    evaluateExpressionTokens h (postfix e ++ rest) = Ok (mkEval v rest []).
Proof.
  induction e as [n|op e IH|op l IHl r IHr]; intros v rest Hv; simpl in Hv.
  - destruct (h !! n) as [[s| |]|] eqn:Hn; try discriminate.
    destruct (atoll s) as [z| |] eqn:Hz; try discriminate.
    injection Hv as <-. simpl.
    rewrite evaluateExpressionTokens_cons, (deref_Some _ _ _ Hn). simpl.
    unfold getIntValue. simpl. rewrite Hz. reflexivity.
  - destruct (h !! op) as [[|t p la [|]|]|] eqn:Hop; try discriminate.
    destruct (value h e) as [x|] eqn:Hx; try discriminate.
    simpl. rewrite evaluateExpressionTokens_cons, (deref_Some _ _ _ Hop).
    simpl. rewrite (IH x rest eq_refl). simpl.
    unfold apply_unary in Hv.
    destruct (t =? "!"); [injection Hv as <-; reflexivity|].
    destruct (t =? "+"); [injection Hv as <-; reflexivity|].
    destruct (t =? "-"); [|discriminate].
    unfold int64_neg. rewrite (fits_checked _ _ Hv). reflexivity.
  - destruct (h !! op) as [[|t p la [|]|]|] eqn:Hop; try discriminate.
    destruct (value h l) as [x|] eqn:Hx; try discriminate.
    destruct (value h r) as [y|] eqn:Hy; try discriminate.
    simpl. rewrite <- app_assoc.
    rewrite evaluateExpressionTokens_cons, (deref_Some _ _ _ Hop).
    simpl. rewrite (IHr y (postfix l ++ rest) eq_refl). simpl.
    rewrite (IHl x rest eq_refl). simpl.
    unfold apply_binary in Hv.
    unfold int64_add, int64_sub, int64_mul, int64_div.
    destruct (t =? "+"); [rewrite (fits_checked _ _ Hv); reflexivity|].
    destruct (t =? "-"); [rewrite (fits_checked _ _ Hv); reflexivity|].
    destruct (t =? "*"); [rewrite (fits_checked _ _ Hv); reflexivity|].
    destruct (t =? "/"); [|discriminate].
    destruct (y =? 0)%Z; [discriminate|].
    rewrite (fits_checked _ _ Hv). reflexivity.
Qed.

(** X8: The evaluator computes the value of the expression on top of the
    stack: when the expression has a value, the evaluator returns it, pops
    the tokens of the expression and no other, and prints nothing. *)
Theorem evaluator_computes_value (h : Heap) (e : Expr) (v : Z)
    (rest : list TokenRef) :
  value h e = Some v ->
  evaluateExpressionTokens h (postfix e ++ rest) = Ok (mkEval v rest []).
Proof. intros Hv. revert v rest Hv. apply evaluate_postfix. Qed.

Lemma evaluate_reads_expression (fuel : nat) (h : Heap) :
  forall (st : list TokenRef) (r : EvalResult),
    evaluate fuel h st = Ok r -> ev_cout r = [] ->
    exists e, st = postfix e ++ ev_stack r /\ value h e = Some (ev_value r).
Proof.
  induction fuel as [|fuel IH]; intros st r; [discriminate|].
  destruct st as [|token st]; [discriminate|].
  rewrite evaluate_unfold. intros H Hcout.
  apply bind_Ok in H as (tk & Htk & H). apply deref_Ok in Htk.
  destruct tk as [s|t p la u|s]; simpl in H.
  - apply bind_Ok in H as (z & Hz & [= <-]).
    exists (ENum token). split; [reflexivity|]. simpl. rewrite Htk.
    unfold getIntValue in Hz. simpl in Hz. rewrite Hz. reflexivity.
  - destruct u.
    + apply bind_Ok in H as (r1 & Hr1 & H).
      assert (ev_cout r1 = [] -> exists e,
                st = postfix e ++ ev_stack r1 /\
                value h e = Some (ev_value r1)) as IH1 by (apply IH; exact Hr1).
      cbv zeta in H.
      assert (forall v, apply_unary t (ev_value r1) = Some v ->
                ev_cout r1 = [] ->
                exists e, token :: st = postfix e ++ ev_stack r1 /\
                          value h e = Some v) as Hgoal.
      { intros v Hv Hc. destruct (IH1 Hc) as (e & -> & He).
        exists (EUn token e). split; [reflexivity|].
        simpl. rewrite Htk, He. exact Hv. }
      unfold apply_unary in Hgoal.
      destruct (t =? "!"); [injection H as <-; simpl in *; eauto|].
      destruct (t =? "+"); [injection H as <-; simpl in *; eauto|].
      destruct (t =? "-").
      * apply bind_Ok in H as (v & Hv & [= <-]). simpl in *.
        apply Hgoal; [|exact Hcout]. apply checked_fits. exact Hv.
      * injection H as <-. simpl in Hcout.
        apply app_eq_nil in Hcout as [_ Hc]. discriminate.
    + apply bind_Ok in H as (r1 & Hr1 & H).
      apply bind_Ok in H as (r2 & Hr2 & H).
      cbv zeta in H.
      assert (forall v, apply_binary t (ev_value r2) (ev_value r1) = Some v ->
                ev_cout r1 ++ ev_cout r2 = [] ->
                exists e, token :: st = postfix e ++ ev_stack r2 /\
                          value h e = Some v) as Hgoal.
      { intros v Hv Hc. apply app_eq_nil in Hc as [Hc1 Hc2].
        destruct (IH _ _ Hr1 Hc1) as (e1 & -> & He1).
        destruct (IH _ _ Hr2 Hc2) as (e2 & E2 & He2).
        exists (EBin token e2 e1). split.
        - simpl. rewrite <- app_assoc, <- E2. reflexivity.
        - simpl. rewrite Htk, He2, He1. exact Hv. }
      unfold apply_binary in Hgoal.
      unfold int64_add, int64_sub, int64_mul, int64_div in H.
      destruct (t =? "+");
        [apply bind_Ok in H as (v & Hv & [= <-]); simpl in *;
         apply Hgoal; [apply checked_fits; exact Hv|exact Hcout]|].
      destruct (t =? "-");
        [apply bind_Ok in H as (v & Hv & [= <-]); simpl in *;
         apply Hgoal; [apply checked_fits; exact Hv|exact Hcout]|].
      destruct (t =? "*");
        [apply bind_Ok in H as (v & Hv & [= <-]); simpl in *;
         apply Hgoal; [apply checked_fits; exact Hv|exact Hcout]|].
      destruct (t =? "/").
      * apply bind_Ok in H as (v & Hv & [= <-]). simpl in *.
        apply Hgoal; [|exact Hcout].
        destruct (ev_value r1 =? 0)%Z; [discriminate|].
        apply checked_fits. exact Hv.
      * injection H as <-. simpl in Hcout.
        apply app_eq_nil in Hcout as [_ Hc]. discriminate.
  - injection H as <-. discriminate.
Qed.

(** X9: Conversely, when the evaluator returns without having printed a
    diagnostic, the tokens it has popped are the postfix form of an
    expression and the integer returned is the value of that expression. *)
Theorem evaluator_reads_expression (h : Heap) (st : list TokenRef)
    (r : EvalResult) :
  evaluateExpressionTokens h st = Ok r -> ev_cout r = [] ->
  exists e, st = postfix e ++ ev_stack r /\ value h e = Some (ev_value r).
Proof. apply evaluate_reads_expression. Qed.

(** ** Fully parenthesized expressions *)

Lemma loopBody_RNumber (h : Heap) (out ops : list TokenRef)
    (prev : option TokenRef) (c : list string) (token : TokenRef) :
  role_at h token = Some RNumber ->
  loopBody (mkSY h out ops prev c) token =
    Continue (mkSY h (token :: out) ops (Some token) c).
Proof.
  intros H. apply role_at_Some in H as (tk & Htk & Hr).
  rewrite (loopBody_by_role (mkSY h out ops prev c) token tk Htk), Hr.
  reflexivity.
Qed.

Lemma loopBody_ROpen (h : Heap) (out ops : list TokenRef)
    (prev : option TokenRef) (c : list string) (token : TokenRef) :
  role_at h token = Some ROpen ->
  loopBody (mkSY h out ops prev c) token =
    Continue (mkSY h out (token :: ops) (Some token) c).
Proof.
  intros H. apply role_at_Some in H as (tk & Htk & Hr).
  rewrite (loopBody_by_role (mkSY h out ops prev c) token tk Htk), Hr.
  reflexivity.
Qed.

(** An operator met when an opening parenthesis is on top of the operator
    stack, the previous token being a number if its text is [+] or [-]:
    it is pushed, and nothing else happens. *)
Lemma loopBody_operator_on_paren (h : Heap) (out ops : list TokenRef)
    (prev lp op : TokenRef) (c : list string) :
  role_at h op = Some ROperator ->
  role_at h lp = Some ROpen ->
  (text_of h op = Some "+" \/ text_of h op = Some "-" ->
   role_at h prev = Some RNumber) ->
  loopBody (mkSY h out (lp :: ops) (Some prev) c) op =
    Continue (mkSY h out (op :: lp :: ops) (Some op) c).
Proof.
  intros Hop Hlp Hprev.
  apply role_at_Some in Hop as (tk & Htk & Hr).
  rewrite (loopBody_by_role (mkSY h out (lp :: ops) (Some prev) c) op tk Htk),
    Hr. simpl.
  apply role_at_Some in Hlp as (ltk & Hltk & Hlr).
  apply role_of_open in Hlr as [_ Hlv].
  assert (tagUnary h (Some prev) op tk = Ok h) as ->.
  { unfold tagUnary.
    destruct ((d_value tk =? "+") || (d_value tk =? "-")) eqn:Ev;
      [|reflexivity].
    apply orb_true_iff in Ev. rewrite !String.eqb_eq in Ev.
    assert (role_at h prev = Some RNumber) as Hp.
    { apply Hprev. unfold text_of. rewrite Htk. simpl.
      destruct Ev as [-> | ->]; auto. }
    apply role_at_Some in Hp as (ptk & Hptk & Hpr).
    apply role_of_number in Hpr.
    rewrite (deref_Some _ _ _ Hptk). simpl. rewrite Hpr. reflexivity. }
  simpl. rewrite (deref_Some _ _ _ Hltk). simpl. rewrite Hlv. reflexivity.
Qed.

(** A closing parenthesis met when an operator is on top of the operator
    stack and an opening parenthesis just below. *)
Lemma loopBody_close_operator (h : Heap) (out ops : list TokenRef)
    (prev : option TokenRef) (lp op rp : TokenRef) (c : list string) :
  role_at h rp = Some RClose ->
  role_at h op = Some ROperator ->
  role_at h lp = Some ROpen ->
  loopBody (mkSY h out (op :: lp :: ops) prev c) rp =
    Continue (mkSY h (op :: out) ops (Some rp) c).
Proof.
  intros Hrp Hop Hlp.
  apply role_at_Some in Hrp as (tk & Htk & Hr).
  rewrite (loopBody_by_role (mkSY h out (op :: lp :: ops) prev c) rp tk Htk),
    Hr. simpl.
  apply role_at_Some in Hop as (otk & Hotk & Hor).
  apply role_of_operator in Hor as [_ Hov].
  apply role_at_Some in Hlp as (ltk & Hltk & Hlr).
  apply role_of_open in Hlr as [_ Hlv].
  rewrite (deref_Some _ _ _ Hotk). simpl. rewrite (eqb_neq_false _ _ Hov).
  rewrite (deref_Some _ _ _ Hltk). simpl. rewrite Hlv. simpl.
  rewrite (deref_Some _ _ _ Hltk). simpl. rewrite Hlv. reflexivity.
Qed.

Lemma well_parenthesized_final (h : Heap) (e : PExpr) :
  well_parenthesized h e ->
  role_at h (final_token e) = Some RNumber \/
  (role_at h (final_token e) = Some RClose /\ forall n, e <> PNum n).
Proof.
  destruct e; simpl; [auto|]. intros (_ & H & _). right. split; [exact H|].
  discriminate.
Qed.

(** The main loop on a fully parenthesized expression: its postfix form is
    put on the output stack; operator stack, store and printed text are as
    before. *)
Lemma mainLoop_parenthesized (h : Heap) (e : PExpr) :
  well_parenthesized h e ->
  forall out ops prev c rest,
    mainLoop (mkSY h out ops prev c) (infix e ++ rest) =
    mainLoop (mkSY h (postfix (tree e) ++ out) ops (Some (final_token e)) c)
             rest.
Proof.
  induction e as [n|lp l IHl op r IHr rp]; intros Hwp out ops prev c rest.
  - simpl in *. rewrite (loopBody_RNumber h out ops prev c n Hwp). reflexivity.
  - destruct Hwp as (Hlp & Hrp & Hop & Hsign & Hl & Hr).
    cbn [infix tree postfix final_token].
    rewrite <- !app_comm_cons, <- app_assoc, <- app_comm_cons, <- app_assoc.
    cbn [mainLoop]. rewrite (loopBody_ROpen h out ops prev c lp Hlp).
    rewrite (IHl Hl). cbn [mainLoop].
    rewrite (loopBody_operator_on_paren h _ ops (final_token l) lp op c Hop Hlp).
    + rewrite (IHr Hr). simpl app. cbn [mainLoop].
      rewrite (loopBody_close_operator h _ ops _ lp op rp c Hrp Hop Hlp).
      rewrite <- app_assoc. reflexivity.
    + intros Ht. destruct (Hsign Ht) as [n ->]. exact Hl.
Qed.

(** X10: On a fully parenthesized expression the pass returns its postfix form,
    reads the whole queue, prints nothing and writes nothing. *)
Theorem pass_parenthesized (h : Heap) (e : PExpr) :
  well_parenthesized h e ->
  shuntingYardAlgorithm h (infix e) = Ok (mkRes (postfix (tree e)) h [] []).
Proof.
  intros Hwp. unfold shuntingYardAlgorithm, passFrom, initialState.
  rewrite <- (app_nil_r (infix e)).
  rewrite (mainLoop_parenthesized h e Hwp). simpl.
  unfold finish. simpl. rewrite app_nil_r. reflexivity.
Qed.

(** X11: Reordering and then evaluating a fully parenthesized expression gives
    its value, with the stack left empty and nothing printed. *)
Theorem run_parenthesized (h : Heap) (e : PExpr) (v : Z) :
  well_parenthesized h e ->
  value h (tree e) = Some v ->
  runOn h (infix e) = Ok (mkEval v [] []).
Proof.
  intros Hwp Hv. unfold runOn, shuntingYardAlgorithm, passFrom, initialState.
  rewrite <- (app_nil_r (infix e)).
  rewrite (mainLoop_parenthesized h e Hwp). simpl.
  unfold finish. simpl.
  exact (evaluate_postfix h (tree e) v [] Hv).
Qed.

(** X12: A [+] or [-] written after a parenthesized operand is taken for a
    sign: the previous token is the Symbol [")"], so the operator is made
    unary; it ends on top of the returned stack above the number that
    follows it, and the evaluator returns the signed number and leaves the
    parenthesized operand on the stack, unevaluated. *)
Theorem sign_after_parenthesis (h : Heap) (e : PExpr) (op c : TokenRef)
    (v : string) (p : N) (la u : bool) :
  well_parenthesized h e ->
  (forall n, e <> PNum n) ->
  h !! op = Some (OperatorToken v p la u) ->
  v = "+" \/ v = "-" ->
  role_at h c = Some RNumber ->
  shuntingYardAlgorithm h (infix e ++ [op; c]) =
    Ok (mkRes (op :: c :: postfix (tree e))
              (<[op := OperatorToken v p false true]> h) [] []) /\
  (forall w,
     value (<[op := OperatorToken v p false true]> h) (EUn op (ENum c)) = Some w ->
     runOn h (infix e ++ [op; c]) = Ok (mkEval w (postfix (tree e)) [])).
Proof.
  intros Hwp Hne Hop Hv Hc.
  set (h' := <[op := OperatorToken v p false true]> h).
  assert (shuntingYardAlgorithm h (infix e ++ [op; c]) =
            Ok (mkRes (op :: c :: postfix (tree e)) h' [] [])) as Hpass.
  { unfold shuntingYardAlgorithm, passFrom, initialState.
    rewrite (mainLoop_parenthesized h e Hwp). rewrite app_nil_r.
    set (s := mkSY h (postfix (tree e)) [] (Some (final_token e)) []).
    assert (unary_context s) as Hctx.
    { right. destruct (well_parenthesized_final h e Hwp) as [Hn|[Hcl _]].
      - destruct e as [n|]; [destruct (Hne n eq_refl)|].
        simpl in Hn. destruct Hwp as (_ & Hrp & _). congruence.
      - apply role_at_Some in Hcl as (tk & Htk & Hr).
        apply role_of_close in Hr as ->.
        exists (final_token e), (SymbolToken ")"). simpl. auto. }
    assert (d_value (OperatorToken v p la u) <> "(") as Hpar
      by (simpl; destruct Hv as [-> | ->]; discriminate).
    cbn [mainLoop].
    rewrite (loopBody_operator s op _ Hop eq_refl Hpar).
    rewrite (tagUnary_unary s op v p la u Hv Hctx). simpl.
    fold h'.
    assert (role_at h' c = Some RNumber) as Hc'.
    { rewrite <- Hc. apply (tagUnary_role h h' (Some (final_token e)) op _ c Hop).
      exact (tagUnary_unary s op v p la u Hv Hctx). }
    rewrite (loopBody_RNumber h' _ [op] (Some op) [] c Hc'). reflexivity. }
  split; [exact Hpass|].
  intros w Hw. unfold runOn. rewrite Hpass. simpl.
  exact (evaluate_postfix h' (EUn op (ENum c)) w (postfix (tree e)) Hw).
Qed.

(** ** Termination of the evaluator *)

(** X13: The recursion of the evaluator is never deeper than the stack is long
    plus one: with that bound or any larger one the evaluation runs to its
    end, and the result does not depend on the bound. *)
Theorem evaluator_depth (h : Heap) (st : list TokenRef) (n : nat) :
  length st < n ->
  evaluate n h st <> OutOfFuel /\
  evaluate n h st = evaluateExpressionTokens h st.
Proof.
  intros Hn. split.
  - apply evaluate_terminates. exact Hn.
  - apply evaluate_fuel; [exact Hn|lia].
Qed.

(** ** The unary check, once more *)

(** X14: Running the unary check again on the object it has just written
    changes nothing. *)
Theorem tagUnary_idempotent (h h' : Heap) (prev : option TokenRef)
    (token : TokenRef) (tk : Token) :
  h !! token = Some tk ->
  tagUnary h prev token tk = Ok h' ->
  exists tk', h' !! token = Some tk' /\ tagUnary h' prev token tk' = Ok h'.
Proof.
  intros Htk Htag. pose proof Htag as Htag0. unfold tagUnary in Htag.
  destruct ((d_value tk =? "+") || (d_value tk =? "-")) eqn:Ev;
    [|injection Htag as <-; eauto].
  apply bind_Ok in Htag as (b & Hb & Htag).
  destruct b; [|injection Htag as <-; eauto].
  apply bind_Ok in Htag as (tk' & Hs & [= <-]).
  exists tk'. rewrite lookup_insert_eq. split; [reflexivity|].
  destruct tk as [|v p la u|]; try discriminate. injection Hs as <-.
  unfold tagUnary. simpl in *. rewrite Ev.
  assert ((match prev with
           | Some q =>
               ptk ← deref (<[token := OperatorToken v p false true]> h) q;
               Ok (TokenType_eqb (type ptk) Operator ||
                   TokenType_eqb (type ptk) Symbol)
           | None => Ok true
           end) = Ok true) as ->.
  { destruct prev as [q|]; [|reflexivity].
    unfold deref. rewrite lookup_insert.
    destruct (decide (token = q)) as [<-|Hne]; [reflexivity|].
    exact Hb. }
  simpl. rewrite insert_insert_eq. reflexivity.
Qed.

(** ** What the rendering of a token tells *)

Lemma string_length_append (s t : string) :
  String.length (s +:+ t) = String.length s + String.length t.
Proof. induction s as [|c s IH]; simpl; [reflexivity|]. rewrite IH. reflexivity. Qed.

Lemma string_append_inv_tail (s1 s2 t : string) :
  s1 +:+ t = s2 +:+ t -> s1 = s2.
Proof.
  revert s2. induction s1 as [|c s1 IH]; intros [|c' s2] H; simpl in H.
  - reflexivity.
  - apply (f_equal String.length) in H.
    rewrite ?string_length_append in H. simpl in H.
    rewrite ?string_length_append in H. lia.
  - apply (f_equal String.length) in H.
    rewrite ?string_length_append in H. simpl in H.
    rewrite ?string_length_append in H. lia.
  - injection H as -> H. f_equal. apply IH. exact H.
Qed.

Lemma string_append_suffix (s1 s2 t1 t2 : string) :
  s1 +:+ t1 = s2 +:+ t2 -> String.length t1 <= String.length t2 ->
  exists k, t2 = k +:+ t1.
Proof.
  revert s1. induction s2 as [|c s2 IH]; intros s1 H Hlen; simpl in H.
  - exists s1. symmetry. exact H.
  - destruct s1 as [|c' s1]; simpl in H.
    + apply (f_equal String.length) in H.
      rewrite ?string_length_append in H. simpl in H.
      rewrite ?string_length_append in H. lia.
    + injection H as _ H. exact (IH s1 H Hlen).
Qed.

Lemma unary_binary_differ (v1 v2 : string) :
  v1 +:+ "', unary)" <> v2 +:+ "', binary)".
Proof.
  intros H.
  destruct (string_append_suffix v1 v2 "', unary)" "', binary)" H) as [k Hk];
    [vm_compute; lia|].
  assert (String.length k = 1) as Hlen.
  { apply (f_equal String.length) in Hk. rewrite string_length_append in Hk.
    change (String.length "', binary)") with 10 in Hk.
    change (String.length "', unary)") with 9 in Hk. lia. }
  destruct k as [|c [|c' k]]; try discriminate Hlen.
  simpl in Hk. discriminate Hk.
Qed.

Ltac drop_empty_prefix H :=
  repeat match type of H with
  | context [String.append EmptyString ?x] =>
      change (String.append EmptyString x) with x in H
  end.

(** X15: Two tokens are rendered alike exactly when they have the same kind, the
    same text and, for operators, the same arity: the rendering determines
    these three and shows neither precedence nor associativity. *)
Theorem toString_tells (a b : Token) :
  toString a = toString b <->
  type a = type b /\ d_value a = d_value b /\ get_unary a = get_unary b.
Proof.
  split.
  - destruct a as [v1|v1 p1 la1 u1|v1], b as [v2|v2 p2 la2 u2|v2];
      unfold toString, Token_toString; simpl; intros H;
      try discriminate H.
    + injection H as H. drop_empty_prefix H.
      apply string_append_inv_tail in H. subst. auto.
    + injection H as H. drop_empty_prefix H. destruct u1, u2.
      * apply string_append_inv_tail in H. subst. auto.
      * destruct (unary_binary_differ _ _ H).
      * symmetry in H. destruct (unary_binary_differ _ _ H).
      * apply string_append_inv_tail in H. subst. auto.
    + injection H as H. drop_empty_prefix H.
      apply string_append_inv_tail in H. subst. auto.
  - destruct a as [v1|v1 p1 la1 u1|v1], b as [v2|v2 p2 la2 u2|v2];
      simpl; intros (Ht & Hv & Hu); try discriminate Ht; subst;
      try reflexivity.
    injection Hu as ->. reflexivity.
Qed.

(** ** [main] *)





(** Every pointer of the returned stack is valid in the returned store. *)
Lemma pass_stack_valid (h : Heap) (q : list TokenRef) (res : SYResult) :
  shuntingYardAlgorithm h q = Ok res ->
  Forall (fun r => is_Some (res_heap res !! r)) (res_stack res).
Proof.
  intros H.
  destruct (pass_spec h q res H)
    as (consumed & go & ops & out & _ & Hrun & -> & Hops & Hroles & _).
  pose proof (run_spec_output_roles _ _ _ _ _ _ _ Hrun (List.Forall_nil _))
    as Hout.
  assert (forall r, is_Some (role_at h r) -> is_Some (res_heap res !! r))
    as Hvalid.
  { intros r [x Hx]. rewrite <- Hroles in Hx. unfold role_at in Hx.
    destruct (res_heap res !! r); [eauto|discriminate]. }
  apply Forall_app. split.
  - rewrite rev_is_reverse. apply Forall_reverse.
    eapply Forall_impl; [exact Hops|].
    intros r [E|E]; apply Hvalid; rewrite E; eauto.
  - eapply Forall_impl; [exact Hout|].
    intros r [E|E]; apply Hvalid; rewrite E; eauto.
Qed.

(** X16: On a queue of valid pointers the pass always returns, and every
    pointer of the stack it returns is valid in the store it leaves: the
    casts of lines 167-177 are never applied to a token that is no
    operator, and what comes next (printing the stack, the first
    dereference of the evaluator) has an object to read. *)
Theorem pass_total (h : Heap) (q : list TokenRef) :
  Forall (fun r => is_Some (h !! r)) q ->
  exists res,
    shuntingYardAlgorithm h q = Ok res /\
    Forall (fun r => is_Some (res_heap res !! r)) (res_stack res).
Proof.
  intros Hq.
  destruct (mainLoop_defined q _ (initialState_wf h) Hq) as (s' & q' & E & _).
  assert (shuntingYardAlgorithm h q = Ok (finish s' q')) as Hres.
  { unfold shuntingYardAlgorithm, passFrom. rewrite E. reflexivity. }
  exists (finish s' q'). split; [exact Hres|].
  exact (pass_stack_valid h q _ Hres).
Qed.


(** What the program prints. *)
Lemma main_TOKENS :
  main =
    Ok [ "('Operator': '-', binary)" +:+ endl;
         "('Number': '6')" +:+ endl;
         "('Operator': '+', binary)" +:+ endl;
         "('Number': '2')" +:+ endl;
         "('Operator': '*', binary)" +:+ endl;
         "('Symbol': '(')" +:+ endl;
         "('Operator': '-', binary)" +:+ endl;
         "('Number': '3')" +:+ endl;
         "('Operator': '-', binary)" +:+ endl;
         "('Number': '1')" +:+ endl;
         "('Symbol': ')')" +:+ endl;
         endl;
         stack_header;
         "('Operator': '+', binary)" +:+ endl;
         "('Operator': '*', binary)" +:+ endl;
         "('Operator': '-', binary)" +:+ endl;
         "('Number': '1')" +:+ endl;
         "('Operator': '-', unary)" +:+ endl;
         "('Number': '3')" +:+ endl;
         "('Number': '2')" +:+ endl;
         "('Operator': '-', unary)" +:+ endl;
         "('Number': '6')" +:+ endl;
         endl;
         "Expressiong result: -14" +:+ endl ].
Proof. vm_compute. reflexivity. Qed.

(** ** Chains of binary operators *)

(** An operator read after a number is pushed as it is, once the loop of
    lines 172-186 has run. *)
Lemma loopBody_operator_after_number (h : Heap) (out ops : list TokenRef)
    (prev op : TokenRef) (c : list string) :
  role_at h op = Some ROperator ->
  role_at h prev = Some RNumber ->
  loopBody (mkSY h out ops (Some prev) c) op =
    match popOperators h op ops out with
    | Ok (ops', out') => Continue (mkSY h out' (op :: ops') (Some op) c)
    | _ => Fault
    end.
Proof.
  intros Hop Hprev.
  apply role_at_Some in Hop as (tk & Htk & Hr).
  rewrite (loopBody_by_role (mkSY h out ops (Some prev) c) op tk Htk), Hr.
  simpl.
  assert (tagUnary h (Some prev) op tk = Ok h) as ->; [|reflexivity].
  unfold tagUnary. destruct (_ || _); [|reflexivity].
  apply role_at_Some in Hprev as (ptk & Hptk & Hpr).
  apply role_of_number in Hpr.
  rewrite (deref_Some _ _ _ Hptk). simpl. rewrite Hpr. reflexivity.
Qed.

Lemma popOperators_gives_way (h : Heap) (o1 o2 : TokenRef)
    (out : list TokenRef) :
  role_at h o1 = Some ROperator -> gives_way h o1 o2 ->
  popOperators h o2 [o1] out = Ok ([], o1 :: out).
Proof.
  intros Hr (v1 & p1 & la1 & u1 & v2 & p2 & la2 & u2 & H1 & H2 & Hp).
  apply role_at_Some in Hr as (tk & Htk & Hr).
  apply role_of_operator in Hr as [_ Hv]. rewrite H1 in Htk.
  injection Htk as <-. simpl in Hv.
  rewrite (popOperators_operator_top h o2 o1 [] out v1 v2 p1 p2 la1 la2 u1 u2
             H2 H1 Hv).
  destruct (N.ltb_spec p1 p2) as [Hlt|Hge]; [destruct Hp as [?|[? _]]; lia|].
  destruct (N.eqb_spec p1 p2) as [Heq|Hne]; simpl.
  - destruct Hp as [Hp|[_ ->]]; [lia|]. reflexivity.
  - reflexivity.
Qed.

Lemma popOperators_stays_under (h : Heap) (o1 o2 : TokenRef)
    (ops out : list TokenRef) :
  role_at h o1 = Some ROperator -> stays_under h o1 o2 ->
  popOperators h o2 (o1 :: ops) out = Ok (o1 :: ops, out).
Proof.
  intros Hr (v1 & p1 & la1 & u1 & v2 & p2 & la2 & u2 & H1 & H2 & Hp).
  apply role_at_Some in Hr as (tk & Htk & Hr).
  apply role_of_operator in Hr as [_ Hv]. rewrite H1 in Htk.
  injection Htk as <-. simpl in Hv.
  rewrite (popOperators_operator_top h o2 o1 ops out v1 v2 p1 p2 la1 la2 u1 u2
             H2 H1 Hv).
  destruct (N.ltb_spec p1 p2) as [Hlt|Hge]; [reflexivity|].
  destruct Hp as [Hp|[-> ->]]; [lia|]. rewrite N.eqb_refl. reflexivity.
Qed.

(** The main loop on the tail of a chain in which every operator gives
    way to the next: one operator is on the stack at any time, and the
    expression read so far is nested to the left. *)
Lemma mainLoop_left_chain (h : Heap) (c : list string) (q : list TokenRef) :
  forall rest acc o out prev,
    chain_ok (gives_way h) h (Some o) rest ->
    role_at h o = Some ROperator ->
    role_at h prev = Some RNumber ->
    o :: out = postfix acc ->
    exists o' out' prev',
      mainLoop (mkSY h out [o] (Some prev) c) (chain_tail rest ++ q) =
      mainLoop (mkSY h out' [o'] (Some prev') c) q /\
      o' :: out' = postfix (left_nested acc rest).
Proof.
  induction rest as [|[o1 n1] rest IH]; intros acc o out prev Hok Ho Hprev Hacc.
  - exists o, out, prev. auto.
  - destruct Hok as (Ho1 & Hn1 & Hgw & Hok).
    cbn [chain_tail app mainLoop].
    rewrite (loopBody_operator_after_number h out [o] prev o1 c Ho1 Hprev).
    rewrite (popOperators_gives_way h o o1 out Ho Hgw).
    cbn [mainLoop].
    rewrite (loopBody_RNumber h (o :: out) [o1] (Some o1) c n1 Hn1).
    apply (IH (EBin o1 acc (ENum n1)) o1 (n1 :: o :: out) n1 Hok Ho1 Hn1).
    simpl. rewrite Hacc. reflexivity.
Qed.

(** The main loop on the tail of a chain in which every operator stays
    under the next: the operators pile up, and the expression is nested to
    the right. *)
Lemma mainLoop_right_chain (h : Heap) (c : list string) (q : list TokenRef) :
  forall rest n ops out,
    chain_ok (stays_under h) h (head ops) rest ->
    Forall (fun r => role_at h r = Some ROperator) ops ->
    role_at h n = Some RNumber ->
    exists ops' out' prev',
      mainLoop (mkSY h (n :: out) ops (Some n) c) (chain_tail rest ++ q) =
      mainLoop (mkSY h out' ops' (Some prev') c) q /\
      rev ops' ++ out' = rev ops ++ postfix (right_nested n rest) ++ out.
Proof.
  induction rest as [|[o1 n1] rest IH]; intros n ops out Hok Hops Hn.
  - exists ops, (n :: out), n. auto.
  - destruct Hok as (Ho1 & Hn1 & Hst & Hok).
    cbn [chain_tail app mainLoop].
    rewrite (loopBody_operator_after_number h (n :: out) ops n o1 c Ho1 Hn).
    assert (popOperators h o1 ops (n :: out) = Ok (ops, n :: out)) as ->.
    { destruct ops as [|o ops']; [reflexivity|].
      inversion Hops; subst.
      apply popOperators_stays_under; assumption. }
    cbn [mainLoop].
    rewrite (loopBody_RNumber h (n :: out) (o1 :: ops) (Some o1) c n1 Hn1).
    destruct (IH n1 (o1 :: ops) (n :: out) Hok ltac:(constructor; assumption) Hn1)
      as (ops' & out' & prev' & Hloop & Hstack).
    exists ops', out', prev'. split; [exact Hloop|].
    rewrite Hstack. simpl. rewrite <- !app_assoc. reflexivity.
Qed.

(** X18: In a chain [n0 o1 n1 ... ok nk] where every operator gives way to the
    next (higher precedence first, or equal precedence and
    left-associative operators), the pass returns the postfix form of the
    expression nested to the left, [((n0 o1 n1) o2 n2) ...], and the
    evaluation gives its value. *)
Theorem left_chain (h : Heap) (n0 : TokenRef)
    (rest : list (TokenRef * TokenRef)) :
  role_at h n0 = Some RNumber ->
  chain_ok (gives_way h) h None rest ->
  shuntingYardAlgorithm h (chain n0 rest) =
    Ok (mkRes (postfix (left_nested (ENum n0) rest)) h [] []) /\
  (forall v, value h (left_nested (ENum n0) rest) = Some v ->
             runOn h (chain n0 rest) = Ok (mkEval v [] [])).
Proof.
  intros Hn0 Hok.
  assert (shuntingYardAlgorithm h (chain n0 rest) =
            Ok (mkRes (postfix (left_nested (ENum n0) rest)) h [] [])) as Hpass.
  { unfold shuntingYardAlgorithm, passFrom, initialState, chain.
    cbn [mainLoop]. rewrite (loopBody_RNumber h [] [] None [] n0 Hn0).
    destruct rest as [|[o1 n1] rest]; [reflexivity|].
    destruct Hok as (Ho1 & Hn1 & _ & Hok).
    cbn [chain_tail mainLoop].
    rewrite (loopBody_operator_after_number h [n0] [] n0 o1 [] Ho1 Hn0).
    cbn [popOperators mainLoop].
    rewrite (loopBody_RNumber h [n0] [o1] (Some o1) [] n1 Hn1).
    destruct (mainLoop_left_chain h [] [] rest (EBin o1 (ENum n0) (ENum n1))
                o1 [n1; n0] n1 Hok Ho1 Hn1 eq_refl)
      as (o' & out' & prev' & Hloop & Hstack).
    rewrite app_nil_r in Hloop. rewrite Hloop. simpl.
    unfold finish. simpl. rewrite Hstack. reflexivity. }
  split; [exact Hpass|].
  intros v Hv. unfold runOn. rewrite Hpass. simpl.
  rewrite <- (app_nil_r (postfix _)).
  exact (evaluate_postfix h _ v [] Hv).
Qed.

(** X19: In a chain where every operator stays under the next (lower precedence
    first, or equal precedence and right-associative operators), the pass
    returns the postfix form of the expression nested to the right,
    [n0 o1 (n1 o2 (n2 ...))], and the evaluation gives its value. *)
Theorem right_chain (h : Heap) (n0 : TokenRef)
    (rest : list (TokenRef * TokenRef)) :
  role_at h n0 = Some RNumber ->
  chain_ok (stays_under h) h None rest ->
  shuntingYardAlgorithm h (chain n0 rest) =
    Ok (mkRes (postfix (right_nested n0 rest)) h [] []) /\
  (forall v, value h (right_nested n0 rest) = Some v ->
             runOn h (chain n0 rest) = Ok (mkEval v [] [])).
Proof.
  intros Hn0 Hok.
  assert (shuntingYardAlgorithm h (chain n0 rest) =
            Ok (mkRes (postfix (right_nested n0 rest)) h [] [])) as Hpass.
  { unfold shuntingYardAlgorithm, passFrom, initialState, chain.
    cbn [mainLoop]. rewrite (loopBody_RNumber h [] [] None [] n0 Hn0).
    destruct (mainLoop_right_chain h [] [] rest n0 [] [] Hok
                (List.Forall_nil _) Hn0)
      as (ops' & out' & prev' & Hloop & Hstack).
    rewrite app_nil_r in Hloop. rewrite Hloop. simpl.
    unfold finish. simpl. rewrite drain_rev, Hstack. simpl.
    rewrite app_nil_r. reflexivity. }
  split; [exact Hpass|].
  intros v Hv. unfold runOn. rewrite Hpass. simpl.
  rewrite <- (app_nil_r (postfix _)).
  exact (evaluate_postfix h _ v [] Hv).
Qed.

(** ** Signs before a number *)

Lemma rising_signs_insert (h : Heap) (u : TokenRef) (v : string) (p : N)
    (la un : bool) :
  h !! u = Some (OperatorToken v p la un) ->
  forall signs p0,
    rising_signs h p0 signs ->
    rising_signs (<[u := OperatorToken v p false true]> h) p0 signs.
Proof.
  intros Hu. induction signs as [|u' rest IH]; intros p0; [auto|].
  intros (v' & p' & la' & un' & Hu' & Hv' & Hp & Hrest). simpl.
  destruct (decide (u = u')) as [<-|Hne].
  - rewrite Hu in Hu'. injection Hu' as <- <- <- <-.
    exists v, p, false, true. rewrite lookup_insert_eq. auto.
  - exists v', p', la', un'. rewrite lookup_insert_ne by exact Hne. auto.
Qed.

(** The main loop on signs met where a sign is unary (at the start, or
    after an operator): each is made unary and right-associative and is
    pushed; none is moved to the output. *)
Lemma mainLoop_signs (c : list string) (q : list TokenRef) :
  forall signs h out ops prev p0,
    rising_signs h p0 signs ->
    match prev with
    | None => True
    | Some r => role_at h r = Some ROperator
    end ->
    Forall (fun r => role_at h r = Some ROperator) ops ->
    match ops with
    | [] => True
    | t :: _ => exists v pt la un,
                  h !! t = Some (OperatorToken v pt la un) /\ p0 = Some pt
    end ->
    exists prev',
      mainLoop (mkSY h out ops prev c) (signs ++ q) =
      mainLoop (mkSY (retag_all h signs) out (rev signs ++ ops) prev' c) q /\
      match prev' with
      | None => True
      | Some r => role_at (retag_all h signs) r = Some ROperator
      end /\
      (forall r, role_at (retag_all h signs) r = role_at h r).
Proof.
  induction signs as [|u rest IH]; intros h out ops prev p0 Hsigns Hprev Hops Htop.
  - exists prev. auto.
  - destruct Hsigns as (v & p & la & un & Hu & Hv & Hp & Hrest).
    set (s := mkSY h out ops prev c).
    set (h1 := <[u := OperatorToken v p false true]> h).
    assert (d_value (OperatorToken v p la un) <> "(") as Hpar
      by (simpl; destruct Hv as [-> | ->]; discriminate).
    assert (unary_context s) as Hctx.
    { destruct prev as [r|]; [right|left; reflexivity].
      apply role_at_Some in Hprev as (ptk & Hptk & Hpr).
      apply role_of_operator in Hpr as [Hk _]. exists r, ptk. auto. }
    pose proof (tagUnary_unary s u v p la un Hv Hctx) as Htag.
    pose proof (fun r => tagUnary_role h h1 prev u _ r Hu Htag) as Hroles.
    assert (retag u h = h1) as Hretag by (unfold retag; rewrite Hu; reflexivity).
    assert (role_at h1 u = Some ROperator) as Hu1.
    { rewrite Hroles. apply role_at_Some. eexists. split; [exact Hu|].
      apply role_of_operator. auto. }
    assert (Forall (fun r => role_at h1 r = Some ROperator) ops) as Hops1.
    { eapply Forall_impl; [exact Hops|]. intros r Hr. rewrite Hroles. exact Hr. }
    assert (popOperators h1 u ops out = Ok (ops, out)) as Hpop.
    { destruct ops as [|t ops']; [reflexivity|].
      inversion Hops1; subst.
      apply popOperators_stays_under; [assumption|].
      destruct Htop as (vt & pt & lat & unt & Ht & ->).
      assert (exists la' un', h1 !! t = Some (OperatorToken vt pt la' un'))
        as (la' & un' & Ht1).
      { unfold h1. rewrite lookup_insert.
        destruct (decide (u = t)) as [<-|Hne]; [|eauto].
        rewrite Hu in Ht. injection Ht as <- <- <- <-. eauto. }
      exists vt, pt, la', un', v, p, false, true.
      split; [exact Ht1|]. split; [apply lookup_insert_eq|].
      destruct (N.eq_dec pt p); [right; auto|left; lia]. }
    cbn [app mainLoop].
    rewrite (loopBody_operator s u _ Hu eq_refl Hpar), Htag. simpl.
    fold h1. rewrite Hpop.
    destruct (IH h1 out (u :: ops) (Some u) (Some p)
                (rising_signs_insert h u v p la un Hu rest _ Hrest) Hu1
                ltac:(constructor; assumption))
      as (prev' & Hloop & Hprev' & Hroles').
    { exists v, p, false, true. split; [apply lookup_insert_eq|reflexivity]. }
    exists prev'. cbn [retag_all]. rewrite Hretag. split; [|split].
    + rewrite Hloop. simpl. rewrite <- app_assoc. reflexivity.
    + exact Hprev'.
    + intros r. rewrite Hroles', Hroles. reflexivity.
Qed.

Lemma postfix_signed (signs : list TokenRef) (n : TokenRef) :
  postfix (signed signs n) = signs ++ [n].
Proof. induction signs as [|u rest IH]; simpl; [reflexivity|]. rewrite IH. reflexivity. Qed.

(** X20: Signs [+] and [-] written before a number, with precedences that do
    not decrease, are all made unary and right-associative; the pass
    returns them above the number in the order written, and the evaluation
    applies them from the innermost outwards. *)
Theorem sign_prefix (h : Heap) (signs : list TokenRef) (n : TokenRef) :
  rising_signs h None signs ->
  role_at h n = Some RNumber ->
  shuntingYardAlgorithm h (signs ++ [n]) =
    Ok (mkRes (signs ++ [n]) (retag_all h signs) [] []) /\
  (forall v, value (retag_all h signs) (signed signs n) = Some v ->
             runOn h (signs ++ [n]) = Ok (mkEval v [] [])).
Proof.
  intros Hsigns Hn.
  assert (shuntingYardAlgorithm h (signs ++ [n]) =
            Ok (mkRes (signs ++ [n]) (retag_all h signs) [] [])) as Hpass.
  { unfold shuntingYardAlgorithm, passFrom, initialState.
    destruct (mainLoop_signs [] [n] signs h [] [] None None Hsigns I
                (List.Forall_nil _) I) as (prev' & Hloop & _ & Hroles).
    rewrite Hloop. cbn [mainLoop].
    rewrite (loopBody_RNumber (retag_all h signs) [] _ prev' [] n);
      [|rewrite Hroles; exact Hn].
    simpl. unfold finish. simpl.
    rewrite drain_rev, app_nil_r, rev_involutive. reflexivity. }
  split; [exact Hpass|].
  intros v Hv. unfold runOn. rewrite Hpass. simpl.
  rewrite <- postfix_signed, <- (app_nil_r (postfix _)).
  exact (evaluate_postfix _ _ v [] Hv).
Qed.

(** ** The properties on the worked examples *)

Lemma pass_TOKENS_1 :
  shuntingYardAlgorithm store_1 [0; 1; 2; 3; 4; 5; 6; 7; 8] = Ok result_1.
Proof. vm_compute. reflexivity. Qed.

Lemma pass_unmatched_close :
  shuntingYardAlgorithm store_unmatched_close [0; 1; 2; 3; 4] =
    Ok result_unmatched_close.
Proof. vm_compute. reflexivity. Qed.

Lemma pass_minus : shuntingYardAlgorithm store_minus [0] = Ok result_minus.
Proof. vm_compute. reflexivity. Qed.

Lemma pass_total_witness :
  Forall (fun r => is_Some (store_open !! r)) [0; 1] /\
  exists res,
    shuntingYardAlgorithm store_open [0; 1] = Ok res /\
    Forall (fun r => is_Some (res_heap res !! r)) (res_stack res).
Proof.
  assert (Forall (fun r => is_Some (store_open !! r)) [0; 1]) as Hq.
  { repeat constructor; eexists; reflexivity. }
  split; [exact Hq|].
  exact (pass_total store_open [0; 1] Hq).
Defined.

Lemma pass_reads_prefix_witness :
  shuntingYardAlgorithm store_unmatched_close [0; 1; 2; 3; 4] =
    Ok result_unmatched_close /\
  exists consumed,
    [0; 1; 2; 3; 4] = consumed ++ [4] /\
    Forall (fun r => is_Some (store_unmatched_close !! r)) consumed /\
    (([mismatched_msg] = [] /\ [4] = []) \/
     ([mismatched_msg] = [mismatched_msg] /\
      exists pre rp, consumed = pre ++ [rp] /\
                     store_unmatched_close !! rp = Some (SymbolToken ")"))).
Proof.
  split; [exact pass_unmatched_close|].
  exact (pass_reads_prefix _ _ _ pass_unmatched_close).
Defined.

Lemma pass_mismatch_iff_witness :
  shuntingYardAlgorithm store_unmatched_close [0; 1; 2; 3; 4] =
    Ok result_unmatched_close /\
  paren_depth store_unmatched_close 0 [0; 1; 2; 3; 4] = None.
Proof.
  split; [exact pass_unmatched_close|].
  apply (proj2 (pass_mismatch_iff _ _ _ pass_unmatched_close)). reflexivity.
Defined.

Lemma pass_output_roles_witness :
  shuntingYardAlgorithm store_1 [0; 1; 2; 3; 4; 5; 6; 7; 8] = Ok result_1 /\
  paren_depth store_1 0 [0; 1; 2; 3; 4; 5; 6; 7; 8] = Some 0 /\
  Forall (fun r => role_at store_1 r = Some RNumber \/
                   role_at store_1 r = Some ROperator) [1; 3; 6; 7; 5; 2; 0].
Proof.
  split; [exact pass_TOKENS_1|]. split; [reflexivity|].
  exact (proj2 (proj2 (pass_output_roles _ _ _ pass_TOKENS_1)) eq_refl).
Defined.

Lemma pass_operand_order_witness :
  shuntingYardAlgorithm store_1 [0; 1; 2; 3; 4; 5; 6; 7; 8] = Ok result_1 /\
  exists consumed,
    [0; 1; 2; 3; 4; 5; 6; 7; 8] = consumed ++ [] /\
    of_role store_1 RNumber (rev [1; 3; 6; 7; 5; 2; 0]) =
    of_role store_1 RNumber consumed.
Proof.
  split; [exact pass_TOKENS_1|].
  exact (pass_operand_order _ _ _ pass_TOKENS_1).
Defined.


Lemma pass_store_witness :
  shuntingYardAlgorithm store_minus [0] = Ok result_minus /\
  option_Forall2 retagged (store_minus !! 0) (res_heap result_minus !! 0) /\
  (1 ∉ [0] -> res_heap result_minus !! 1 = store_minus !! 1).
Proof.
  split; [exact pass_minus|].
  destruct (pass_store _ _ _ pass_minus) as (H1 & H2 & _).
  split; [exact (H1 0)|exact (H2 1)].
Defined.

Lemma evaluator_leaves_suffix_witness :
  evaluateExpressionTokens store_caret [0; 1; 2; 3] =
    Ok (mkEval 0 [3] [error_msg (OperatorToken "^" 3 true false)]) /\
  exists used, used <> [] /\ [0; 1; 2; 3] = used ++ [3].
Proof.
  assert (evaluateExpressionTokens store_caret [0; 1; 2; 3] =
            Ok (mkEval 0 [3] [error_msg (OperatorToken "^" 3 true false)]))
    as H by reflexivity.
  split; [exact H|].
  exact (evaluator_leaves_suffix _ _ _ H).
Defined.

Lemma evaluator_computes_value_witness :
  value store_quotient (EBin 0 (ENum 2) (ENum 1)) = Some 3%Z /\
  evaluateExpressionTokens store_quotient [0; 1; 2; 0] =
    Ok (mkEval 3 [0] []).
Proof.
  split; [reflexivity|].
  exact (evaluator_computes_value store_quotient (EBin 0 (ENum 2) (ENum 1))
           3%Z [0] eq_refl).
Defined.

Lemma evaluator_reads_expression_witness :
  evaluateExpressionTokens store_quotient [0; 1; 2] = Ok (mkEval 3 [] []) /\
  exists e, [0; 1; 2] = postfix e ++ [] /\ value store_quotient e = Some 3%Z.
Proof.
  assert (evaluateExpressionTokens store_quotient [0; 1; 2] =
            Ok (mkEval 3 [] [])) as H by reflexivity.
  split; [exact H|].
  exact (evaluator_reads_expression _ _ _ H eq_refl).
Defined.

Lemma paren_sum_ok : well_parenthesized store_paren_sign paren_sum.
Proof.
  simpl. repeat split; try reflexivity. intros _. exists 1. reflexivity.
Qed.

Lemma pass_parenthesized_witness :
  well_parenthesized store_paren_sign paren_sum /\
  shuntingYardAlgorithm store_paren_sign [0; 1; 2; 3; 4] =
    Ok (mkRes [2; 3; 1] store_paren_sign [] []).
Proof.
  split; [exact paren_sum_ok|].
  exact (pass_parenthesized store_paren_sign paren_sum paren_sum_ok).
Defined.

Lemma run_parenthesized_witness :
  well_parenthesized store_paren_sign paren_sum /\
  value store_paren_sign (tree paren_sum) = Some 3%Z /\
  runOn store_paren_sign [0; 1; 2; 3; 4] = Ok (mkEval 3 [] []).
Proof.
  split; [exact paren_sum_ok|]. split; [reflexivity|].
  exact (run_parenthesized store_paren_sign paren_sum 3%Z paren_sum_ok eq_refl).
Defined.

Lemma sign_after_parenthesis_witness :
  well_parenthesized store_paren_sign paren_sum /\
  store_paren_sign !! 5 = Some (OperatorToken "-" 1 true false) /\
  role_at store_paren_sign 6 = Some RNumber /\
  runOn store_paren_sign [0; 1; 2; 3; 4; 5; 6] = Ok (mkEval (-3) [2; 3; 1] []).
Proof.
  split; [exact paren_sum_ok|]. split; [reflexivity|]. split; [reflexivity|].
  refine (proj2 (sign_after_parenthesis store_paren_sign paren_sum 5 6 "-" 1%N
                   true false paren_sum_ok _ eq_refl (or_intror eq_refl) eq_refl)
            (-3)%Z eq_refl).
  intros n. discriminate.
Defined.

Lemma evaluator_depth_witness :
  length [0; 1; 2] < 4 /\
  evaluate 4 store_quotient [0; 1; 2] <> OutOfFuel /\
  evaluate 4 store_quotient [0; 1; 2] =
    evaluateExpressionTokens store_quotient [0; 1; 2].
Proof.
  assert (length [0; 1; 2] < 4) as H by (simpl; lia).
  split; [exact H|].
  exact (evaluator_depth store_quotient [0; 1; 2] 4 H).
Defined.

Lemma tagUnary_idempotent_witness :
  store_minus !! 0 = Some (OperatorToken "-" 1 true false) /\
  tagUnary store_minus None 0 (OperatorToken "-" 1 true false) =
    Ok (<[0 := OperatorToken "-" 1 false true]> store_minus) /\
  exists tk',
    <[0 := OperatorToken "-" 1 false true]> store_minus !! 0 = Some tk' /\
    tagUnary (<[0 := OperatorToken "-" 1 false true]> store_minus) None 0 tk' =
      Ok (<[0 := OperatorToken "-" 1 false true]> store_minus).
Proof.
  split; [reflexivity|]. split; [reflexivity|].
  exact (tagUnary_idempotent store_minus _ None 0 _ eq_refl eq_refl).
Defined.

Lemma left_chain_witness :
  role_at store_left 0 = Some RNumber /\
  chain_ok (gives_way store_left) store_left None [(1, 2); (3, 4)] /\
  runOn store_left [0; 1; 2; 3; 4] = Ok (mkEval 4 [] []).
Proof.
  assert (chain_ok (gives_way store_left) store_left None [(1, 2); (3, 4)])
    as Hok.
  { simpl. repeat split; try reflexivity.
    exists "-", 1%N, true, false, "-", 1%N, true, false.
    repeat split; try reflexivity. right. split; reflexivity. }
  split; [reflexivity|]. split; [exact Hok|].
  exact (proj2 (left_chain store_left 0 [(1, 2); (3, 4)] eq_refl Hok)
           4%Z eq_refl).
Defined.

Lemma right_chain_witness :
  role_at store_right 0 = Some RNumber /\
  chain_ok (stays_under store_right) store_right None [(1, 2); (3, 4)] /\
  runOn store_right [0; 1; 2; 3; 4] = Ok (mkEval 6 [] []).
Proof.
  assert (chain_ok (stays_under store_right) store_right None [(1, 2); (3, 4)])
    as Hok.
  { simpl. repeat split; try reflexivity.
    exists "-", 1%N, false, false, "-", 1%N, false, false.
    repeat split; try reflexivity. right. split; reflexivity. }
  split; [reflexivity|]. split; [exact Hok|].
  exact (proj2 (right_chain store_right 0 [(1, 2); (3, 4)] eq_refl Hok)
           6%Z eq_refl).
Defined.

Lemma sign_prefix_witness :
  rising_signs store_signs None [0; 1] /\
  role_at store_signs 2 = Some RNumber /\
  runOn store_signs [0; 1; 2] = Ok (mkEval 6 [] []).
Proof.
  assert (rising_signs store_signs None [0; 1]) as Hs.
  { simpl. exists "-", 1%N, true, false.
    split; [reflexivity|]. split; [auto|]. split; [exact I|].
    exists "-", 1%N, true, false.
    split; [reflexivity|]. split; [auto|]. split; [apply N.le_refl|exact I]. }
  split; [exact Hs|]. split; [reflexivity|].
  exact (proj2 (sign_prefix store_signs [0; 1] 2 Hs eq_refl) 6%Z eq_refl).
Defined.

(** ** When the pass goes wrong *)

Lemma role_at_None (h : Heap) (r : TokenRef) :
  role_at h r = None <-> h !! r = None.
Proof. unfold role_at. destruct (h !! r); simpl; split; congruence. Qed.

Lemma role_at_valid (h h' : Heap) (r : TokenRef) :
  role_at h' r = role_at h r -> is_Some (h !! r) -> is_Some (h' !! r).
Proof.
  unfold role_at. intros E [x Hx]. rewrite Hx in E.
  destruct (h' !! r); [eauto|discriminate].
Qed.

Lemma paren_depth_ext (h h' : Heap) :
  (forall r, role_at h' r = role_at h r) ->
  forall q d, paren_depth h' d q = paren_depth h d q.
Proof.
  intros Hext. induction q as [|r q IH]; intros d; [reflexivity|].
  simpl. rewrite Hext. destruct (role_at h r) as [[]|]; auto.
  destruct d; auto.
Qed.

Lemma count_role_ext (h h' : Heap) (x : role) :
  (forall r, role_at h' r = role_at h r) ->
  forall l, count_role h' x l = count_role h x l.
Proof.
  intros Hext l. unfold count_role, of_role. f_equal.
  induction l as [|r l IH]; [reflexivity|].
  rewrite !filter_cons, IH.
  destruct (decide (role_at h' r = Some x)) as [E|E];
    destruct (decide (role_at h r = Some x)) as [E'|E'];
    try reflexivity; rewrite Hext in E; contradiction.
Qed.

(** The main loop runs through valid tokens as long as no closing
    parenthesis is unmatched. *)
Lemma iterate_runs :
  forall (pre : list TokenRef) (s : SYState),
    roles_inv s ->
    Forall (fun r => is_Some (heap s !! r)) pre ->
    is_Some (paren_depth (heap s)
               (count_role (heap s) ROpen (operatorStack s)) pre) ->
    exists s', iterate s pre = Some s' /\
               (forall r, role_at (heap s') r = role_at (heap s) r).
Proof.
  induction pre as [|token pre IH]; intros s Hinv Hval Hd.
  - exists s. auto.
  - inversion Hval as [|? ? [tk Htk] Hval']; subst.
    pose proof (loopBody_roles s token Hinv) as Hstep. simpl.
    destruct (loopBody s token) as [s1|s1|]; [| |congruence].
    + destruct Hstep as [_ Hinv1 Hroles Hspec _ _].
      destruct (body_spec_depth _ _ _ _ _ _ _ pre Hspec) as [E _].
      rewrite E in Hd.
      rewrite <- (paren_depth_ext (heap s) (heap s1) Hroles) in Hd.
      rewrite <- (count_role_ext (heap s) (heap s1) ROpen Hroles) in Hd.
      destruct (IH s1 Hinv1) as (s' & Hit & Hroles'); [|exact Hd|].
      * eapply Forall_impl; [exact Hval'|]. intros r.
        apply role_at_valid. apply Hroles.
      * exists s'. split; [exact Hit|]. intros r.
        rewrite Hroles', Hroles. reflexivity.
    + destruct Hstep as [_ _ _ Hspec _ _].
      destruct (body_spec_depth _ _ _ _ _ _ _ pre Hspec) as [E _].
      rewrite E in Hd. destruct Hd; discriminate.
Qed.

Lemma mainLoop_undefined :
  forall (q : list TokenRef) (s : SYState),
    roles_inv s ->
    mainLoop s q = Undefined ->
    exists pre r rest,
      q = pre ++ r :: rest /\ heap s !! r = None /\
      Forall (fun r => is_Some (heap s !! r)) pre /\
      is_Some (paren_depth (heap s)
                 (count_role (heap s) ROpen (operatorStack s)) pre).
Proof.
  induction q as [|token rest IH]; intros s Hinv H; [discriminate|].
  simpl in H. pose proof (loopBody_roles s token Hinv) as Hstep.
  destruct (loopBody s token) as [s1|s1|]; [|discriminate|].
  - destruct Hstep as [Hvalid Hinv1 Hroles Hspec _ _].
    destruct (IH s1 Hinv1 H) as (pre & r & rest' & -> & Hr & Hval & Hd).
    exists (token :: pre), r, rest'. split; [reflexivity|].
    split; [|split].
    + apply role_at_None. rewrite <- Hroles. apply role_at_None. exact Hr.
    + constructor; [exact Hvalid|].
      eapply Forall_impl; [exact Hval|]. intros x.
      apply role_at_valid. symmetry. apply Hroles.
    + destruct (body_spec_depth _ _ _ _ _ _ _ pre Hspec) as [E _].
      rewrite E.
      rewrite <- (paren_depth_ext (heap s) (heap s1) Hroles).
      rewrite <- (count_role_ext (heap s) (heap s1) ROpen Hroles).
      exact Hd.
  - exists [], token, rest.
    split; [reflexivity|]. split; [exact Hstep|]. split; [constructor|].
    simpl. eauto.
Qed.

(** X21: The pass goes wrong exactly when it reads a null pointer, that is,
    when a null pointer stands in the queue after valid pointers among
    which no closing parenthesis is unmatched.  In every other case it
    returns. *)
Theorem pass_undefined_iff (h : Heap) (q : list TokenRef) :
  (shuntingYardAlgorithm h q = Undefined <->
   exists pre r rest,
     q = pre ++ r :: rest /\ h !! r = None /\
     Forall (fun r => is_Some (h !! r)) pre /\
     is_Some (paren_depth h 0 pre)) /\
  shuntingYardAlgorithm h q <> OutOfFuel.
Proof.
  unfold shuntingYardAlgorithm, passFrom. split; [split|].
  - intros H.
    destruct (mainLoop (initialState h) q) as [[s' q']| |] eqn:E;
      try discriminate.
    exact (mainLoop_undefined q _ (initialState_roles_inv h) E).
  - intros (pre & r & rest & -> & Hr & Hval & Hd).
    destruct (iterate_runs pre (initialState h) (initialState_roles_inv h)
                Hval Hd) as (s' & Hit & Hroles).
    rewrite (mainLoop_iterate _ _ _ (r :: rest) Hit). simpl.
    rewrite loopBody_null; [reflexivity|].
    apply role_at_None. rewrite Hroles. apply role_at_None. exact Hr.
  - assert (forall q s, mainLoop s q <> OutOfFuel) as Hfuel.
    { clear. induction q as [|token rest IH]; intros s; simpl;
        [discriminate|].
      destruct (loopBody s token); [apply IH|discriminate|discriminate]. }
    pose proof (Hfuel q (initialState h)) as Hq.
    destruct (mainLoop (initialState h) q) as [[s' q']| |]; simpl; congruence.
Qed.

(** ** The operator loop as a whole *)

(** X22: The loop of lines 172-186 moves to the output stack, top first, the
    longest run of operators at the top of the operator stack that give
    way to the incoming operator; it stops at the first opening
    parenthesis, at the first operator that stays under the incoming one,
    or when the stack is empty. *)
Theorem pop_loop_spec (h : Heap) (token : TokenRef) (v : string) (p : N)
    (la u : bool) (ops out : list TokenRef) :
  h !! token = Some (OperatorToken v p la u) ->
  Forall (fun r => role_at h r = Some ROpen \/ role_at h r = Some ROperator)
         ops ->
  exists popped kept,
    ops = popped ++ kept /\
    popOperators h token ops out = Ok (kept, rev popped ++ out) /\
    Forall (fun o => role_at h o = Some ROperator /\ gives_way h o token)
           popped /\
    match kept with
    | [] => True
    | top :: _ =>
        role_at h top = Some ROpen \/
        (role_at h top = Some ROperator /\ stays_under h top token)
    end.
Proof.
  intros Htk Hops. revert out.
  induction Hops as [|top rest Htop _ IH]; intros out.
  - exists [], []. repeat split; auto.
  - destruct Htop as [Htop|Htop].
    + exists [], (top :: rest). split; [reflexivity|].
      split; [|split; [constructor|left; exact Htop]].
      apply role_at_Some in Htop as (ttk & Hl & Hr).
      apply role_of_open in Hr as [_ Hv].
      simpl. rewrite (deref_Some _ _ _ Hl). simpl. rewrite Hv. reflexivity.
    + pose proof Htop as Hrole.
      apply role_at_Some in Htop as (ttk & Hl & Hr).
      apply role_of_operator in Hr as [Hk Hv].
      destruct ttk as [|v1 p1 la1 u1|]; try discriminate. simpl in Hv.
      rewrite (popOperators_operator_top h token top rest out v1 v p1 p la1 la
                 u1 u Htk Hl Hv).
      destruct (N.ltb_spec p1 p) as [Hlt|Hge].
      { exists [], (top :: rest). split; [reflexivity|].
        split; [reflexivity|]. split; [constructor|]. right.
        split; [exact Hrole|].
        exists v1, p1, la1, u1, v, p, la, u. auto. }
      destruct (N.eqb_spec p1 p) as [Heq|Hne]; destruct la; simpl.
      * destruct (IH (top :: out)) as (popped & kept & -> & Heq' & Hall & Hk').
        exists (top :: popped), kept. split; [reflexivity|]. split.
        { rewrite Heq'. simpl. rewrite <- app_assoc. reflexivity. }
        split; [|exact Hk']. constructor; [|exact Hall].
        split; [exact Hrole|].
        exists v1, p1, la1, u1, v, p, true, u. auto.
      * exists [], (top :: rest). split; [reflexivity|].
        split; [reflexivity|]. split; [constructor|]. right.
        split; [exact Hrole|].
        exists v1, p1, la1, u1, v, p, false, u. auto.
      * destruct (IH (top :: out)) as (popped & kept & -> & Heq' & Hall & Hk').
        exists (top :: popped), kept. split; [reflexivity|]. split.
        { rewrite Heq'. simpl. rewrite <- app_assoc. reflexivity. }
        split; [|exact Hk']. constructor; [|exact Hall].
        split; [exact Hrole|].
        exists v1, p1, la1, u1, v, p, true, u.
        split; [exact Hl|]. split; [exact Htk|]. left. lia.
      * destruct (IH (top :: out)) as (popped & kept & -> & Heq' & Hall & Hk').
        exists (top :: popped), kept. split; [reflexivity|]. split.
        { rewrite Heq'. simpl. rewrite <- app_assoc. reflexivity. }
        split; [|exact Hk']. constructor; [|exact Hall].
        split; [exact Hrole|].
        exists v1, p1, la1, u1, v, p, false, u.
        split; [exact Hl|]. split; [exact Htk|]. left. lia.
Qed.

Lemma pop_loop_spec_witness :
  store_product_sum !! 3 = Some (OperatorToken "+" 1 true false) /\
  Forall (fun r => role_at store_product_sum r = Some ROpen \/
                   role_at store_product_sum r = Some ROperator) [1] /\
  exists popped kept,
    [1] = popped ++ kept /\
    popOperators store_product_sum 3 [1] [2; 0] =
      Ok (kept, rev popped ++ [2; 0]) /\
    Forall (fun o => role_at store_product_sum o = Some ROperator /\
                     gives_way store_product_sum o 3) popped /\
    match kept with
    | [] => True
    | top :: _ =>
        role_at store_product_sum top = Some ROpen \/
        (role_at store_product_sum top = Some ROperator /\
         stays_under store_product_sum top 3)
    end.
Proof.
  assert (Forall (fun r => role_at store_product_sum r = Some ROpen \/
                           role_at store_product_sum r = Some ROperator) [1])
    as Hops by (repeat constructor; right; reflexivity).
  split; [reflexivity|]. split; [exact Hops|].
  exact (pop_loop_spec store_product_sum 3 "+" 1%N true false [1] [2; 0]
           eq_refl Hops).
Defined.
